(** * CUDA-graph capture, replay and caching ([sfast/cuda/graphs.py])

    A shallow embedding of the module: the fingerprint of call arguments
    ([hash_arg]), the structural copy into static buffers ([tree_copy_]), the
    device resolver ([get_cuda_device_from_tensors]), the per-device registry
    of execution environments ([get_per_device_graph_execution_env]), the
    capture protocol ([make_graphed_callable]) with its replay wrapper, and
    the dynamic cache ([make_dynamic_graphed_callable]).

    Python values are an inductive type; tensors are references into a store
    of buffers, so that in-place copies, deep copies and aliasing are visible.
    Code that raises is a function into [res]; code that mutates is a function
    on an explicit state that also survives an exception.  The [with lock:]
    blocks are atomic steps of this sequential model. *)

From Stdlib Require Import ZArith List String Ascii SpecFloat Permutation Lia.
From Stdlib.Strings Require Import Byte.
From stdpp Require Import base gmap list strings sorting.

Local Open Scope Z_scope.

(** ** Exceptions and results *)

(** The exceptions the modelled code can raise.  [NotModelled] marks the few
    places where Python would go through torch's tensor iteration or
    comparison, which this development does not describe; no theorem relies
    on it. *)
Inductive exn :=
| TypeError | AssertionError | KeyError | IndexError | RuntimeError
| ValueError | NotModelled.

Inductive res (A : Type) :=
| Ok (a : A)
| Raise (e : exn).
Arguments Ok {A} a.
Arguments Raise {A} e.

Definition res_bind {A B} (r : res A) (k : A → res B) : res B :=
  match r with Ok a => k a | Raise e => Raise e end.

Declare Scope res_scope.
Delimit Scope res_scope with res.
Notation "'let?' x := r 'in' k" := (res_bind r (fun x => k))
  (at level 10, x pattern, r at level 100, k at level 200) : res_scope.
Local Open Scope res_scope.

(** [map] with a function that may raise; the first exception wins, as in a
    Python loop or a consumed generator. *)
Definition res_map {A B} (f : A → res B) : list A → res (list B) :=
  fix go l :=
    match l with
    | [] => Ok []
    | x :: l' => let? y := f x in let? ys := go l' in Ok (y :: ys)
    end.

(** ** Python values *)

(** [torch.dtype] objects: singletons compared by identity. *)
Inductive torch_dtype :=
| dt_float16 | dt_bfloat16 | dt_float32 | dt_float64
| dt_uint8 | dt_int8 | dt_int16 | dt_int32 | dt_int64 | dt_bool.

Definition dtype_eqb (a b : torch_dtype) : bool :=
  match a, b with
  | dt_float16, dt_float16 | dt_bfloat16, dt_bfloat16
  | dt_float32, dt_float32 | dt_float64, dt_float64
  | dt_uint8, dt_uint8 | dt_int8, dt_int8 | dt_int16, dt_int16
  | dt_int32, dt_int32 | dt_int64, dt_int64 | dt_bool, dt_bool => true
  | _, _ => false
  end.

(** One element of a buffer, as [Tensor.item()] hands it to Python (complex
    elements are left out). *)
Inductive scalar :=
| SBool (b : bool)
| SInt (z : Z)
| SFloat (f : spec_float).

(** A tensor object: its metadata and the address of its buffer in the store.
    [shape] stands for [torch.Size], a subclass of [tuple]; [is_leaf] is
    [Tensor.is_leaf], false for the result of an operation that autograd
    tracks. *)
Record tensor := Tensor {
  device_type : string;
  device_index : option Z;
  dtype : torch_dtype;
  shape : list Z;
  storage : nat;
  is_leaf : bool
}.

(** Dictionary keys: the hashable scalars [hash_arg] keeps.  Keyword
    arguments always have [KStr] keys.  A [float] key may be a [nan], which
    [<] does not order.  Keys of other types ([None], tuples, frozensets,
    user objects) are outside this development. *)
Inductive pykey :=
| KBool (b : bool)
| KInt (z : Z)
| KStr (s : string)
| KBytes (bs : list byte)
| KFloat (f : spec_float).

(** A [dict] is the list of its entries in insertion order. *)
#[local] Unset Elimination Schemes.
Inductive pyval :=
| VNone
| VBool (b : bool)
| VInt (z : Z)
| VFloat (f : spec_float)
| VStr (s : string)
| VBytes (bs : list byte)
| VTuple (items : list pyval)
| VList (items : list pyval)
| VDict (entries : list (pykey * pyval))
| VTensor (t : tensor)
| VDtype (d : torch_dtype)
| VOther (id : nat).
#[local] Set Elimination Schemes.

Definition key_val (k : pykey) : pyval :=
  match k with
  | KBool b => VBool b
  | KInt z => VInt z
  | KStr s => VStr s
  | KBytes bs => VBytes bs
  | KFloat f => VFloat f
  end.

Definition scalar_val (x : scalar) : pyval :=
  match x with
  | SBool b => VBool b
  | SInt z => VInt z
  | SFloat f => VFloat f
  end.

(** Induction over values, through the lists of tuples, lists and dicts. *)
Section pyval_induction.
Variable P : pyval → Prop.
Hypothesis HNone : P VNone.
Hypothesis HBool : ∀ b, P (VBool b).
Hypothesis HInt : ∀ z, P (VInt z).
Hypothesis HFloat : ∀ f, P (VFloat f).
Hypothesis HStr : ∀ s, P (VStr s).
Hypothesis HBytes : ∀ bs, P (VBytes bs).
Hypothesis HTuple : ∀ l, Forall P l → P (VTuple l).
Hypothesis HList : ∀ l, Forall P l → P (VList l).
Hypothesis HDict : ∀ d, Forall (λ kv, P kv.2) d → P (VDict d).
Hypothesis HTensor : ∀ t, P (VTensor t).
Hypothesis HDtype : ∀ d, P (VDtype d).
Hypothesis HOther : ∀ i, P (VOther i).

Fixpoint pyval_nested_ind (v : pyval) : P v :=
  match v with
  | VNone => HNone
  | VBool b => HBool b
  | VInt z => HInt z
  | VFloat f => HFloat f
  | VStr s => HStr s
  | VBytes bs => HBytes bs
  | VTuple l =>
      HTuple l ((fix go l : Forall P l :=
                   match l with
                   | [] => Forall_nil_2 P
                   | x :: l' => Forall_cons_2 P x l' (pyval_nested_ind x) (go l')
                   end) l)
  | VList l =>
      HList l ((fix go l : Forall P l :=
                  match l with
                  | [] => Forall_nil_2 P
                  | x :: l' => Forall_cons_2 P x l' (pyval_nested_ind x) (go l')
                  end) l)
  | VDict d =>
      HDict d ((fix go d : Forall (λ kv, P kv.2) d :=
                  match d with
                  | [] => Forall_nil_2 _
                  | kv :: d' =>
                      Forall_cons_2 (λ kv, P kv.2) kv d'
                        (pyval_nested_ind kv.2) (go d')
                  end) d)
  | VTensor t => HTensor t
  | VDtype d => HDtype d
  | VOther i => HOther i
  end.
End pyval_induction.

(** ** Python comparison *)

Module PyCompare.

(** Numbers of the three numeric types compare by mathematical value
    ([1 == 1.0 == True]).  A finite non-zero number is [± m * 2^e] with [m]
    odd; this normal form is shared by [int], [bool] and [float]. *)
Inductive num :=
| NumZero
| NumFin (neg : bool) (m : positive) (e : Z)
| NumInf (neg : bool)
| NumNaN.

Fixpoint strip_twos (m : positive) (e : Z) : positive * Z :=
  match m with
  | xO m' => strip_twos m' (e + 1)
  | _ => (m, e)
  end.

Definition num_fin (neg : bool) (m : positive) (e : Z) : num :=
  let '(m', e') := strip_twos m e in NumFin neg m' e'.

Definition num_of_Z (z : Z) : num :=
  match z with
  | Z0 => NumZero
  | Zpos p => num_fin false p 0
  | Zneg p => num_fin true p 0
  end.

Definition num_of_float (f : spec_float) : num :=
  match f with
  | S754_zero _ => NumZero
  | S754_infinity s => NumInf s
  | S754_nan => NumNaN
  | S754_finite s m e => num_fin s m e
  end.

(** [nan] equals nothing, itself included. *)
Definition num_eqb (a b : num) : bool :=
  match a, b with
  | NumZero, NumZero => true
  | NumFin s1 m1 e1, NumFin s2 m2 e2 =>
      Bool.eqb s1 s2 && (m1 =? m2)%positive && (e1 =? e2)
  | NumInf s1, NumInf s2 => Bool.eqb s1 s2
  | _, _ => false
  end.

(** [a < b] on numbers, by mathematical value; a [nan] is below nothing and
    nothing is below it.  Two finite numbers are compared as integers after
    scaling both by the smaller power of two. *)
Definition num_exp (a : num) : Z :=
  match a with NumFin _ _ e => e | _ => 0 end.

Definition num_scaled (e : Z) (a : num) : Z :=
  match a with
  | NumFin neg m e' => (if neg then Z.neg m else Z.pos m) * 2 ^ (e' - e)
  | _ => 0
  end.

Definition num_ltb (a b : num) : bool :=
  match a, b with
  | NumNaN, _ | _, NumNaN => false
  | NumInf s1, NumInf s2 => s1 && negb s2
  | NumInf s, _ => s
  | _, NumInf s => negb s
  | _, _ =>
      let e := Z.min (num_exp a) (num_exp b) in
      num_scaled e a <? num_scaled e b
  end.

Definition py_num (v : pyval) : option num :=
  match v with
  | VBool b => Some (num_of_Z (Z.b2z b))
  | VInt z => Some (num_of_Z z)
  | VFloat f => Some (num_of_float f)
  | _ => None
  end.

Definition bytes_eqb (a b : list byte) : bool :=
  bool_decide (map Byte.to_N a = map Byte.to_N b).

(** Code points of a [str] (each character of the Rocq string is one code
    point) and of a [bytes]. *)
Definition str_codes (s : string) : list Z :=
  map (λ a, Z.of_N (N_of_ascii a)) (list_ascii_of_string s).
Definition bytes_codes (bs : list byte) : list Z :=
  map (λ b, Z.of_N (Byte.to_N b)) bs.

(** Keys fall into three kinds; [<] is defined inside a kind only.  [float]
    is a numeric type as [int] and [bool] are. *)
Inductive kind := KNum | KText | KBin.

#[global] Instance kind_eq_dec : EqDecision kind.
Proof. solve_decision. Defined.

Definition key_kind (k : pykey) : kind :=
  match k with
  | KBool _ | KInt _ | KFloat _ => KNum
  | KStr _ => KText
  | KBytes _ => KBin
  end.


Definition key_num (k : pykey) : option num := py_num (key_val k).

(** The code of a key of a totally ordered type: the integer itself, the
    code points of a string.  A [float] key has none and is compared by
    value. *)
Definition key_codes (k : pykey) : list Z :=
  match k with
  | KBool b => [Z.b2z b]
  | KInt z => [z]
  | KStr s => str_codes s
  | KBytes bs => bytes_codes bs
  | KFloat _ => []
  end.

Definition lex_ltb (a b : list Z) : bool :=
  match list_compare Z.compare a b with Lt => true | _ => false end.

(** [a < b] on keys: numeric order on [int]/[bool]/[float] (false whenever
    an operand is a [nan]), lexicographic order on [str] and on [bytes],
    [TypeError] across kinds. *)
Definition key_lt (a b : pykey) : res bool :=
  match a, b with
  | (KBool _ | KInt _), (KBool _ | KInt _) =>
      Ok (lex_ltb (key_codes a) (key_codes b))
  | KStr s, KStr t => Ok (lex_ltb (str_codes s) (str_codes t))
  | KBytes s, KBytes t => Ok (lex_ltb (bytes_codes s) (bytes_codes t))
  | KFloat _, (KBool _ | KInt _ | KFloat _) | (KBool _ | KInt _), KFloat _ =>
      match key_num a, key_num b with
      | Some x, Some y => Ok (num_ltb x y)
      | _, _ => Raise TypeError
      end
  | _, _ => Raise TypeError
  end.

(** [a == b] on keys, the equality under which a [dict] has one entry per
    key ([1], [1.0] and [True] are the same key).  A [nan] equals no key; a
    dict finds a key by identity before it tries [==], so that it finds the
    very [nan] object it was given: that shortcut is not described. *)
Definition key_eqb (a b : pykey) : bool :=
  match a, b with
  | (KBool _ | KInt _), (KBool _ | KInt _)
  | KStr _, KStr _
  | KBytes _, KBytes _ => bool_decide (key_codes a = key_codes b)
  | KFloat _, (KBool _ | KInt _ | KFloat _) | (KBool _ | KInt _), KFloat _ =>
      match key_num a, key_num b with
      | Some x, Some y => num_eqb x y
      | _, _ => false
      end
  | _, _ => false
  end.

Fixpoint dict_get {V} (d : list (pykey * V)) (k : pykey) : option V :=
  match d with
  | [] => None
  | (k', v) :: d' => if key_eqb k' k then Some v else dict_get d' k
  end.

(** [a == b].  Comparisons with a tensor operand are elementwise in torch
    and never reach this function: fingerprints hold no tensor and
    [tree_copy_] treats a tensor source apart.  An object of another type
    ([VOther]) equals itself only.  Python compares the items of two tuples
    by identity first; that shortcut, which makes one [nan] object equal to
    itself inside a tuple, is not described: a [nan] is unequal to every
    value. *)
Fixpoint py_eq (a b : pyval) {struct a} : bool :=
  match a, b with
  | VNone, VNone => true
  | VStr s, VStr t => String.eqb s t
  | VBytes s, VBytes t => bytes_eqb s t
  | VTuple l1, VTuple l2 | VList l1, VList l2 =>
      (fix go (l1 l2 : list pyval) : bool :=
         match l1, l2 with
         | [], [] => true
         | x :: l1', y :: l2' => py_eq x y && go l1' l2'
         | _, _ => false
         end) l1 l2
  | VDict d1, VDict d2 =>
      (length d1 =? length d2)%nat &&
      (fix go (d : list (pykey * pyval)) : bool :=
         match d with
         | [] => true
         | (k, v) :: d' =>
             match dict_get d2 k with
             | Some v' => py_eq v v' && go d'
             | None => false
             end
         end) d1
  | VDtype d1, VDtype d2 => dtype_eqb d1 d2
  | VOther i, VOther j => (i =? j)%nat
  | _, _ =>
      match py_num a, py_num b with
      | Some x, Some y => num_eqb x y
      | _, _ => false
      end
  end.

End PyCompare.
Import PyCompare.

(** ** The buffer store *)

(** The store maps the address of a buffer to its elements; a new buffer is
    appended, so addresses below the length are the allocated ones. *)
Abbreviation heap := (list (list scalar)).

Definition tensor_data (h : heap) (t : tensor) : list scalar :=
  default [] (h !! storage t).

(** [Tensor.numel()]: the number of elements the buffer holds. *)
Definition numel (h : heap) (t : tensor) : nat := length (tensor_data h t).

(** The 0-dim CPU tensor torch makes of a Python number; its buffer would be
    the next one of the store. *)
Definition number_tensor (d : torch_dtype) (a : nat) : tensor :=
  Tensor "cpu" None d [] a true.

(** [Tensor.item()]: the element of a one-element buffer. *)
Definition item (h : heap) (t : tensor) : res pyval :=
  match tensor_data h t with
  | [x] => Ok (scalar_val x)
  | _ => Raise RuntimeError
  end.

Definition is_cpu (t : tensor) : bool := String.eqb (device_type t) "cpu".
Definition is_cuda (t : tensor) : bool := String.eqb (device_type t) "cuda".

(** An optional index as a Python value ([None] or an [int]). *)
Definition index_val (i : option Z) : pyval :=
  match i with Some z => VInt z | None => VNone end.

(** ** [sorted(..., key=lambda x: x[0])] *)

(** A stable sort that uses [<] on the keys only, here by insertion from left
    to right; an exception of [<] ends it.  On keys that [<] orders totally
    every stable sort gives this result.  On other keys (a [nan] among them)
    Python does not say what [sorted] returns, and what [list.sort] does
    depends on its run detection; for two items it is what is written here:
    they are exchanged exactly when the second is below the first.  Nothing
    below depends on the order of more than two such items. *)
Fixpoint insort {V} (x : pykey * V) (l : list (pykey * V)) : res (list (pykey * V)) :=
  match l with
  | [] => Ok [x]
  | y :: l' =>
      let? b := key_lt x.1 y.1 in
      if b then Ok (x :: l) else let? r := insort x l' in Ok (y :: r)
  end.

Fixpoint sorted_from {V} (acc l : list (pykey * V)) : res (list (pykey * V)) :=
  match l with
  | [] => Ok acc
  | x :: l' => let? acc' := insort x acc in sorted_from acc' l'
  end.

Definition sorted_by_key {V} (l : list (pykey * V)) : res (list (pykey * V)) :=
  sorted_from [] l.

(** ** Argument fingerprint *)

(** [hash_arg] on a value that holds no tensor and no dict, which is what it
    meets when [map(hash_arg, sorted(...))] runs over the pairs
    [(k, hash_arg(v))] that are already fingerprints ([hash_arg_on_pair]
    below proves that this is [hash_arg] there).  A [torch.dtype] is none of
    the types [hash_arg] tests for, so it becomes [None]. *)
Fixpoint hash_fingerprint (v : pyval) : pyval :=
  match v with
  | VBool _ | VInt _ | VFloat _ | VStr _ | VBytes _ => v
  | VTuple l | VList l => VTuple (map hash_fingerprint l)
  | _ => VNone
  end.

Fixpoint hash_arg (h : heap) (arg : pyval) : res pyval :=
  match arg with
  | VTensor t =>
      let arg_device_type := device_type t in
      let? it := (if String.eqb arg_device_type "cpu" && (numel h t =? 1)%nat
                  then item h t else Ok VNone) in
      Ok (VTuple [VStr arg_device_type; index_val (device_index t);
                  VDtype (dtype t); VTuple (map VInt (shape t)); it])
  | VBool _ | VInt _ | VFloat _ | VStr _ | VBytes _ => Ok arg
  | VTuple l | VList l =>
      let? fs := res_map (hash_arg h) l in Ok (VTuple fs)
  | VDict d =>
      let? pairs := res_map (λ kv, let? f := hash_arg h kv.2 in Ok (kv.1, f)) d in
      let? s := sorted_by_key pairs in
      Ok (VTuple (map (λ kf, hash_fingerprint (VTuple [key_val kf.1; kf.2])) s))
  | _ => Ok VNone
  end.

(** ** Device resolver *)

Fixpoint get_cuda_device_from_tensors (x : pyval) : option Z :=
  match x with
  | VTensor t =>
      if String.eqb (device_type t) "cuda" then device_index t else None
  | VList l | VTuple l =>
      (fix go (l : list pyval) : option Z :=
         match l with
         | [] => None
         | y :: l' =>
             match get_cuda_device_from_tensors y with
             | Some device => Some device
             | None => go l'
             end
         end) l
  | VDict d =>
      (fix go (d : list (pykey * pyval)) : option Z :=
         match d with
         | [] => None
         | kv :: d' =>
             match get_cuda_device_from_tensors kv.2 with
             | Some device => Some device
             | None => go d'
             end
         end) d
  | _ => None
  end.

(** ** State and exceptions *)

(** A computation on a state [S] that returns or raises; the state reached is
    kept in both cases, as it is when a Python exception propagates. *)
Definition M (S A : Type) : Type := S → res A * S.

Definition ret {S A} (a : A) : M S A := λ s, (Ok a, s).
Definition raise {S A} (e : exn) : M S A := λ s, (Raise e, s).
Definition bind {S A B} (m : M S A) (k : A → M S B) : M S B :=
  λ s, match m s with
       | (Ok a, s') => k a s'
       | (Raise e, s') => (Raise e, s')
       end.
Definition lift_res {S A} (r : res A) : M S A := λ s, (r, s).
Definition gets {S A} (f : S → A) : M S A := λ s, (Ok (f s), s).
Definition modify {S} (f : S → S) : M S unit := λ s, (Ok tt, f s).
Definition zoom {S T A} (get : T → S) (set : S → T → T) (m : M S A) : M T A :=
  λ t, let '(r, s') := m (get t) in (r, set s' t).
Definition py_assert {S} (b : bool) : M S unit :=
  if b then ret tt else raise AssertionError.

Declare Scope M_scope.
Delimit Scope M_scope with M.
Notation "'let*' x := m 'in' k" := (bind m (fun x => k))
  (at level 10, x pattern, m at level 100, k at level 200) : M_scope.
Notation "m ;; k" := (bind m (fun _ => k))
  (at level 100, k at level 200, right associativity) : M_scope.
Local Open Scope M_scope.

(** ** Iteration and subscripting of a source value *)

(** [iter(src)], as [zip(dest, src)] calls it.  A [dict] yields its keys, a
    [str] its characters, a [bytes] its integers. *)
Definition py_iter (src : pyval) : res (list pyval) :=
  match src with
  | VTuple l | VList l => Ok l
  | VDict d => Ok (map (λ kv, key_val kv.1) d)
  | VStr s => Ok (map (λ a, VStr (String a EmptyString)) (list_ascii_of_string s))
  | VBytes bs => Ok (map (λ b, VInt (Z.of_N (Byte.to_N b))) bs)
  | VTensor _ => Raise NotModelled
  | _ => Raise TypeError
  end.

(** [l[i]] on a sequence, with Python's negative indices. *)
Definition py_index {A} (l : list A) (i : Z) : res A :=
  let n := Z.of_nat (length l) in
  let j := if i <? 0 then i + n else i in
  if (0 <=? j) && (j <? n)
  then match l !! Z.to_nat j with Some x => Ok x | None => Raise IndexError end
  else Raise IndexError.

(** [src[k]] for a key [k] of the destination dict. *)
Definition py_getitem (src : pyval) (k : pykey) : res pyval :=
  match src with
  | VDict d =>
      match dict_get d k with Some v => Ok v | None => Raise KeyError end
  | VTuple l | VList l =>
      match k with
      | KInt i => py_index l i
      | KBool b => py_index l (Z.b2z b)
      | _ => Raise TypeError
      end
  | VStr _ | VBytes _ | VTensor _ => Raise NotModelled
  | _ => Raise TypeError
  end.

(** ** Deep copy *)

(** The tensors of a value in traversal order. *)
Fixpoint tensors_of (v : pyval) : list tensor :=
  match v with
  | VTensor t => [t]
  | VTuple l | VList l => flat_map tensors_of l
  | VDict d => flat_map (λ kv, tensors_of kv.2) d
  | _ => []
  end.

(** [copy.deepcopy]: containers are rebuilt, a tensor is cloned into a new
    buffer with the same metadata, and the memo maps a buffer already cloned
    to its clone, so that sharing inside the copied value is kept.  Scalars,
    [None] and dtypes are returned as they are, and so are the objects of
    other types, which stand for immutable values here.  [Tensor.__deepcopy__]
    raises [RuntimeError] for a tensor that is no leaf; the clones made
    before that are garbage, so that a copy that raises leaves the store as
    it was. *)
Definition clone_tensor (t : tensor) (memo : list (nat * nat)) (h : heap)
  : tensor * list (nat * nat) * heap :=
  match list_find (λ p, p.1 = storage t) memo with
  | Some (_, (_, a)) =>
      (Tensor (device_type t) (device_index t) (dtype t) (shape t) a (is_leaf t),
       memo, h)
  | None =>
      let a := length h in
      (Tensor (device_type t) (device_index t) (dtype t) (shape t) a (is_leaf t),
       (storage t, a) :: memo, h ++ [tensor_data h t])
  end.

(** Copying the items of a container from left to right, the memo and the
    store passing from one item to the next. *)
Definition copy_items {A} (f : A → list (nat * nat) → heap → A * list (nat * nat) * heap)
  : list A → list (nat * nat) → heap → list A * list (nat * nat) * heap :=
  fix go l memo h :=
    match l with
    | [] => ([], memo, h)
    | x :: l' =>
        let '(x', memo1, h1) := f x memo h in
        let '(r, memo2, h2) := go l' memo1 h1 in
        (x' :: r, memo2, h2)
    end.

Fixpoint deepcopy_memo (v : pyval) (memo : list (nat * nat)) (h : heap)
  : pyval * list (nat * nat) * heap :=
  match v with
  | VTensor t =>
      let '(t', memo', h') := clone_tensor t memo h in (VTensor t', memo', h')
  | VTuple l =>
      let '(l', memo', h') := copy_items deepcopy_memo l memo h in
      (VTuple l', memo', h')
  | VList l =>
      let '(l', memo', h') := copy_items deepcopy_memo l memo h in
      (VList l', memo', h')
  | VDict d =>
      let '(d', memo', h') :=
        copy_items (λ kv memo h,
                      let '(x', memo', h') := deepcopy_memo kv.2 memo h in
                      ((kv.1, x'), memo', h')) d memo h in
      (VDict d', memo', h')
  | _ => (v, memo, h)
  end.

Definition deepcopy (v : pyval) : M heap pyval :=
  λ h, if forallb is_leaf (tensors_of v)
       then let '(v', _, h') := deepcopy_memo v [] h in (Ok v', h')
       else (Raise RuntimeError, h).

(** ** The process state *)

(** [class GraphExecutionEnv]: the memory pool, device index, stream and lock
    of one device; pool, stream and lock are handles of torch objects. *)
Record GraphExecutionEnv := MkGraphExecutionEnv {
  mempool : nat;
  device : Z;
  stream : nat;
  lock : nat
}.

(** The state the module runs in: the buffer store, the module-level registry
    [_per_device_execution_envs], what [torch.cuda] reports (current device,
    number of devices, current stream of a device) and the next unused handle
    for a pool, stream or lock.  [capture_calls] is instrumentation: it counts
    the entries into [simple_make_graphed_callable]. *)
Record world := World {
  w_heap : heap;
  per_device_execution_envs : gmap Z GraphExecutionEnv;
  current_device : Z;
  device_count : Z;
  current_stream : Z → nat;
  next_handle : nat;
  capture_calls : nat
}.

Definition set_heap (h : heap) (w : world) : world :=
  World h (per_device_execution_envs w) (current_device w) (device_count w)
        (current_stream w) (next_handle w) (capture_calls w).
Definition set_envs (e : gmap Z GraphExecutionEnv) (w : world) : world :=
  World (w_heap w) e (current_device w) (device_count w)
        (current_stream w) (next_handle w) (capture_calls w).
Definition set_next_handle (n : nat) (w : world) : world :=
  World (w_heap w) (per_device_execution_envs w) (current_device w)
        (device_count w) (current_stream w) n (capture_calls w).
Definition set_capture_calls (n : nat) (w : world) : world :=
  World (w_heap w) (per_device_execution_envs w) (current_device w)
        (device_count w) (current_stream w) (next_handle w) n.

Definition on_heap {A} (m : M heap A) : M world A := zoom w_heap set_heap m.

(** A new torch object ([graph_pool_handle()], [Stream()], [Lock()]). *)
Definition fresh_handle : M world nat :=
  λ w, (Ok (next_handle w), set_next_handle (S (next_handle w)) w).

(** Entering [torch.cuda.device(d)] (or creating a stream on [d]): nothing for
    a negative index, [RuntimeError] for an index that is no device.  The
    previous device is current again on exit. *)
Definition cuda_device_guard (d : Z) : M world unit :=
  λ w, if (d <? 0) || (d <? device_count w) then (Ok tt, w)
       else (Raise RuntimeError, w).

(** What a caller passes as [device]: nothing, an index, or a
    [torch.device] with its type and optional index. *)
Inductive device_arg :=
| DevNone
| DevIndex (i : Z)
| DevTorch (type : string) (index : option Z).

(** The user's callable: whether it is a [torch.nn.Module], its [training]
    attribute if it has one, what one invocation does to the store and
    returns, and the GPU work that a capture of an invocation on given static
    arguments records, as a function on the store. *)
Record callable := Callable {
  c_is_module : bool;
  c_training : option bool;
  c_run : list pyval → list (string * pyval) → M heap pyval;
  c_kernels : pyval → pyval → heap → heap
}.

(** [torch.cuda.CUDAGraph] after capture: the recorded work and the extent of
    the store when capture ended; a replay writes only buffers that existed
    then. *)
Record CUDAGraph := MkCUDAGraph {
  graph_kernels : heap → heap;
  graph_extent : nat
}.

(** The [_GraphedModule] object together with what its methods close over. *)
Record GraphedModule := MkGraphedModule {
  gm_callable : callable;
  gm_execution_env : GraphExecutionEnv;
  gm_fwd_graph : CUDAGraph;
  gm_static_inputs : pyval;
  gm_static_kwarg_inputs : pyval;
  gm_static_outputs : pyval;
  training : bool
}.

(** The closure of [make_dynamic_graphed_callable]: the wrapped callable and
    its [cached_callables], a dict in insertion order. *)
Record dynamic_wrapper := MkDynamicWrapper {
  dw_callable : callable;
  cached_callables : list (pyval * GraphedModule)
}.

(** [cached_callables.get(key)] and [cached_callables[key] = g], with the
    equality of Python dict keys. *)
Fixpoint cache_get (cache : list (pyval * GraphedModule)) (key : pyval)
  : option GraphedModule :=
  match cache with
  | [] => None
  | (k, g) :: cache' => if py_eq k key then Some g else cache_get cache' key
  end.

Fixpoint cache_set (cache : list (pyval * GraphedModule)) (key : pyval)
    (g : GraphedModule) : list (pyval * GraphedModule) :=
  match cache with
  | [] => [(key, g)]
  | (k, g') :: cache' =>
      if py_eq k key then (k, g) :: cache' else (k, g') :: cache_set cache' key g
  end.

(** The keyword arguments of a call as the dict [kwargs]. *)
Definition kwargs_val (kw : list (string * pyval)) : pyval :=
  VDict (map (λ sv, (KStr sv.1, sv.2)) kw).

(** [**k] at a call site: [k] must be a mapping with [str] keys. *)
Definition py_kwargs (k : pyval) : res (list (string * pyval)) :=
  match k with
  | VDict d =>
      res_map (λ kv, match kv.1 with
                     | KStr s => Ok (s, kv.2)
                     | _ => Raise TypeError
                     end) d
  | _ => Raise TypeError
  end.

(** ** Tree copy *)

Section Graphs.

(** [dest.copy_(src)] for two tensors: the elements that torch writes into the
    buffer of [dest] (after broadcasting and conversion), or its exception.
    The arguments are the two tensors and the present elements of both. *)
Variable copy_elements :
  tensor → list scalar → tensor → list scalar → res (list scalar).

(** The copy from a source tensor with given elements: the buffer of [dest]
    takes what torch computes, and is left alone when torch raises. *)
Definition copy_into (dest s : tensor) (sd : list scalar) : M heap unit :=
  λ h, match copy_elements dest (tensor_data h dest) s sd with
       | Ok data => (Ok tt, <[storage dest := data]> h)
       | Raise e => (Raise e, h)
       end.

(** [dest.copy_(src)].  A Python number as source is wrapped by torch in a
    0-dim CPU tensor of the matching dtype, whose one element goes into every
    element of [dest]; any other source that is no tensor is a [TypeError]. *)
Definition tensor_copy_ (dest : tensor) (src : pyval) : M heap unit :=
  match src with
  | VTensor s => λ h, copy_into dest s (tensor_data h s) h
  | VBool b => λ h, copy_into dest (number_tensor dt_bool (length h)) [SBool b] h
  | VInt z => λ h, copy_into dest (number_tensor dt_int64 (length h)) [SInt z] h
  | VFloat f => λ h, copy_into dest (number_tensor dt_float64 (length h)) [SFloat f] h
  | _ => raise TypeError
  end.

Fixpoint tree_copy_ (dest src : pyval) {struct dest} : M heap unit :=
  match dest with
  | VTensor d => tensor_copy_ d src
  | VList ds | VTuple ds =>
      let* ys := lift_res (py_iter src) in
      (fix go (ds ys : list pyval) : M heap unit :=
         match ds, ys with
         | x :: ds', y :: ys' => tree_copy_ x y ;; go ds' ys'
         | _, _ => ret tt
         end) ds ys
  | VDict dd =>
      (fix go (dd : list (pykey * pyval)) : M heap unit :=
         match dd with
         | [] => ret tt
         | (k, x) :: dd' =>
             let* y := lift_res (py_getitem src k) in
             tree_copy_ x y ;; go dd'
         end) dd
  | _ =>
      match src with
      | VTensor _ => raise NotModelled
      | _ => py_assert (py_eq dest src)
      end
  end.

(** ** Execution environment registry *)

Definition GraphExecutionEnv_init (mempool : nat) (device : device_arg)
    (stream lock : option nat) : M world GraphExecutionEnv :=
  let* device :=
    match device with
    | DevTorch type index => py_assert (String.eqb type "cuda") ;; ret index
    | DevIndex i => ret (Some i)
    | DevNone => ret None
    end in
  let* self_device :=
    match device with None => gets current_device | Some i => ret i end in
  let* self_stream :=
    match stream with
    | None => gets (λ w, current_stream w self_device)
    | Some s => ret s
    end in
  let* self_lock :=
    match lock with None => fresh_handle | Some l => ret l end in
  ret (MkGraphExecutionEnv mempool self_device self_stream self_lock).

(** The block under [_per_device_execution_envs_lock], for a device index:
    create and register the environment if there is none, return the
    registered one. *)
Definition registered_env (device : Z) : M world GraphExecutionEnv :=
  let* envs := gets per_device_execution_envs in
  match envs !! device with
  | None =>
      cuda_device_guard device ;;
      let* mempool := fresh_handle in
      let* stream := fresh_handle in
      let* lock := fresh_handle in
      let* env := GraphExecutionEnv_init mempool (DevIndex device)
                    (Some stream) (Some lock) in
      modify (λ w, set_envs (<[device := env]> (per_device_execution_envs w)) w)
  | Some _ => ret tt
  end ;;
  let* envs := gets per_device_execution_envs in
  match envs !! device with
  | Some env => ret env
  | None => raise KeyError
  end.

Definition get_per_device_graph_execution_env (device : device_arg)
  : M world GraphExecutionEnv :=
  let* device :=
    match device with
    | DevTorch type index => py_assert (String.eqb type "cuda") ;; ret index
    | DevIndex i => ret (Some i)
    | DevNone => ret None
    end in
  let* device :=
    match device with None => gets current_device | Some i => ret i end in
  registered_env device.

(** ** Graph capture protocol *)

(** A call of the callable with star-unpacked positional and keyword
    arguments. *)
Definition py_call (c : callable) (args kwargs : pyval) : M world pyval :=
  let* a := lift_res (py_iter args) in
  let* k := lift_res (py_kwargs kwargs) in
  on_heap (c_run c a k).

(** [fwd_graph.replay()]: the recorded work rewrites buffers below the extent
    of the graph. *)
Definition replay (g : CUDAGraph) : M heap unit :=
  modify (λ h, imap (λ a old,
                       if (a <? graph_extent g)%nat
                       then default old (graph_kernels g h !! a) else old) h).

Definition _forward (g : GraphedModule) (inputs : list pyval)
    (kwarg_inputs : list (string * pyval)) : M world pyval :=
  on_heap (tree_copy_ (gm_static_inputs g) (VTuple inputs)) ;;
  on_heap (tree_copy_ (gm_static_kwarg_inputs g) (kwargs_val kwarg_inputs)) ;;
  on_heap (replay (gm_fwd_graph g)) ;;
  ret (gm_static_outputs g).

Definition forward (g : GraphedModule) (inputs : list pyval)
    (kwarg_inputs : list (string * pyval)) : M world pyval :=
  (* with execution_env.lock: *)
  let* outputs := _forward g inputs kwarg_inputs in
  let* outputs := on_heap (deepcopy outputs) in
  ret outputs.

(** [functionalized] calls the module object, which runs [forward]. *)
Definition functionalized (g : GraphedModule) (user_args : list pyval)
    (user_kwarg_args : list (string * pyval)) : M world pyval :=
  forward g user_args user_kwarg_args.

Definition warmup_call (c : callable) (example_inputs example_kwarg_inputs : pyval)
  : M world unit :=
  let* a := on_heap (deepcopy example_inputs) in
  let* k := on_heap (deepcopy example_kwarg_inputs) in
  py_call c a k ;; ret tt.

Definition make_graphed_callable (c : callable)
    (example_inputs example_kwarg_inputs : pyval)
    (execution_env : GraphExecutionEnv) : M world GraphedModule :=
  let training :=
    if c_is_module c then default false (c_training c) else false in
  let example_inputs :=
    match example_inputs with VNone => VTuple [] | _ => example_inputs end in
  let example_kwarg_inputs :=
    match example_kwarg_inputs with VNone => VDict [] | _ => example_kwarg_inputs end in
  (* fwd_graph = torch.cuda.CUDAGraph(); torch.cuda.synchronize() *)
  cuda_device_guard (device execution_env) ;;
  fresh_handle ;;
  warmup_call c example_inputs example_kwarg_inputs ;;
  warmup_call c example_inputs example_kwarg_inputs ;;
  warmup_call c example_inputs example_kwarg_inputs ;;
  let* static_inputs := on_heap (deepcopy example_inputs) in
  let* static_kwarg_inputs := on_heap (deepcopy example_kwarg_inputs) in
  (* torch.cuda.synchronize(); with execution_env.lock: *)
  cuda_device_guard (device execution_env) ;;
  let* static_outputs := py_call c static_inputs static_kwarg_inputs in
  let* extent := gets (λ w, length (w_heap w)) in
  let fwd_graph :=
    MkCUDAGraph (c_kernels c static_inputs static_kwarg_inputs) extent in
  ret (MkGraphedModule c execution_env fwd_graph static_inputs
         static_kwarg_inputs static_outputs training).

Definition simple_make_graphed_callable (c : callable)
    (example_inputs example_kwarg_inputs : pyval) : M world GraphedModule :=
  modify (λ w, set_capture_calls (S (capture_calls w)) w) ;;
  let cuda_device :=
    get_cuda_device_from_tensors (VTuple [example_inputs; example_kwarg_inputs]) in
  match cuda_device with
  | None => raise AssertionError
  | Some cuda_device =>
      let* execution_env :=
        get_per_device_graph_execution_env (DevIndex cuda_device) in
      make_graphed_callable c example_inputs example_kwarg_inputs execution_env
  end.

(** ** Dynamic graph cache *)

Definition make_dynamic_graphed_callable (c : callable) : dynamic_wrapper :=
  MkDynamicWrapper c [].

Definition on_world {A} (m : M world A) : M (dynamic_wrapper * world) A :=
  zoom snd (λ w s, (s.1, w)) m.

Definition set_cached (key : pyval) (g : GraphedModule)
  : M (dynamic_wrapper * world) unit :=
  modify (λ s, (MkDynamicWrapper (dw_callable s.1)
                  (cache_set (cached_callables s.1) key g), s.2)).

(** The cache key of a call, [(hash_arg(args), hash_arg(kwargs))]. *)
Definition call_key (h : heap) (args : list pyval) (kwargs : list (string * pyval))
  : res pyval :=
  let? a := hash_arg h (VTuple args) in
  let? k := hash_arg h (kwargs_val kwargs) in
  Ok (VTuple [a; k]).

Definition dynamic_graphed_callable (args : list pyval)
    (kwargs : list (string * pyval)) : M (dynamic_wrapper * world) pyval :=
  let* key := (λ s, (call_key (w_heap s.2) args kwargs, s)) in
  let* cached_callable := gets (λ s, cache_get (cached_callables s.1) key) in
  let* cached_callable :=
    match cached_callable with
    | Some g => ret g
    | None =>
        (* with lock: *)
        let* cached_callable := gets (λ s, cache_get (cached_callables s.1) key) in
        match cached_callable with
        | Some g => ret g
        | None =>
            let* c := gets (λ s, dw_callable s.1) in
            let* g := on_world (simple_make_graphed_callable c
                                  (VTuple args) (kwargs_val kwargs)) in
            set_cached key g ;;
            ret g
        end
    end in
  on_world (functionalized cached_callable args kwargs).

End Graphs.

(** * Vocabulary of the specification *)

(** Some tensor on a CUDA device occurs among the elements of sequences and
    the values of dicts, at any depth. *)
Fixpoint has_cuda_buffer (x : pyval) : bool :=
  match x with
  | VTensor t => is_cuda t
  | VList l | VTuple l => existsb has_cuda_buffer l
  | VDict d => existsb (λ kv, has_cuda_buffer kv.2) d
  | _ => false
  end.

(** A Python dict has one entry per key. *)
Fixpoint dict_wf {V} (d : list (pykey * V)) : bool :=
  match d with
  | [] => true
  | kv :: d' => forallb (λ kv', negb (key_eqb kv.1 kv'.1)) d' && dict_wf d'
  end.



(** The values [hash_arg] returns: [None], scalars, dtypes and tuples of
    them. *)
Fixpoint is_fingerprint (v : pyval) : bool :=
  match v with
  | VNone | VBool _ | VInt _ | VFloat _ | VStr _ | VBytes _ | VDtype _ => true
  | VTuple l => forallb is_fingerprint l
  | _ => false
  end.

(** A sequence value, a list or a tuple. *)
Definition py_seq (as_list : bool) (l : list pyval) : pyval :=
  if as_list then VList l else VTuple l.

(** The addresses of the buffers of the tensors of a value, and the elements
    these buffers hold in a store. *)
Definition addrs (v : pyval) : list nat := map storage (tensors_of v).
Definition buffers (h : heap) (v : pyval) : list (list scalar) :=
  map (tensor_data h) (tensors_of v).

(** A value with the addresses of its tensors erased: its structure, scalars
    and tensor metadata. *)
Fixpoint erase (v : pyval) : pyval :=
  match v with
  | VTensor t =>
      VTensor (Tensor (device_type t) (device_index t) (dtype t) (shape t) 0
                      (is_leaf t))
  | VTuple l => VTuple (map erase l)
  | VList l => VList (map erase l)
  | VDict d => VDict (map (λ kv, (kv.1, erase kv.2)) d)
  | _ => v
  end.

(** The static buffers of a replay wrapper and the extent of its graph lie
    below the bound [b]. *)
Definition graphed_within (g : GraphedModule) (b : nat) : Prop :=
  Forall (λ a, (a < b)%nat)
    (addrs (gm_static_inputs g) ++ addrs (gm_static_kwarg_inputs g) ++
     addrs (gm_static_outputs g)) ∧
  (graph_extent (gm_fwd_graph g) ≤ b)%nat.

(** During a deep copy that started in the store [h0]: the store has only
    grown, and each memo entry maps a buffer of [h0] to a new buffer with the
    same elements. *)
Definition memo_ok (h0 : heap) (memo : list (nat * nat)) (h : heap) : Prop :=
  h0 `prefix_of` h ∧
  Forall (λ p, (p.1 < length h0)%nat ∧ (length h0 ≤ p.2 < length h)%nat ∧
               h !! p.2 = Some (default [] (h0 !! p.1))) memo.

(** What a copy of [x] made in the store [h] has to satisfy, for a kind of
    value with tensors [ts] and structure [er]: the memo is in order, the
    store has grown, the copy has the structure of [x], its buffers hold the
    elements of the buffers of [x], and they are new. *)
Definition copy_post {A} (ts : A → list tensor) (er : A → A) (h0 : heap)
    (x : A) (h : heap) (r : A * list (nat * nat) * heap) : Prop :=
  memo_ok h0 r.1.2 r.2 ∧ h `prefix_of` r.2 ∧ er r.1.1 = er x ∧
  map (tensor_data r.2) (ts r.1.1) = map (tensor_data h0) (ts x) ∧
  Forall (λ a, (length h0 ≤ a < length r.2)%nat) (map storage (ts r.1.1)).

(** The store has not shrunk and its buffers from address [b] on are as they
    were. *)
Definition stable_from (b : nat) (h h' : heap) : Prop :=
  (length h ≤ length h')%nat ∧
  ∀ a, (b ≤ a)%nat → (a < length h)%nat → h' !! a = h !! a.

Definition heap_stable_from (b : nat) (w w' : world) : Prop :=
  stable_from b (w_heap w) (w_heap w').

(** A computation relates every state to the state it leaves, whether it
    returns or raises. *)
Definition preserves {S A} (R : S → S → Prop) (m : M S A) : Prop :=
  ∀ s, R s (m s).2.

(** Only the buffer store differs between two process states. *)
Definition only_heap_changed (w w' : world) : Prop :=
  w' = set_heap (w_heap w') w.

(** Every registered environment is still registered, unchanged. *)
Definition envs_kept (w w' : world) : Prop :=
  ∀ i e, per_device_execution_envs w !! i = Some e →
         per_device_execution_envs w' !! i = Some e.

(** The device index a [device] argument stands for in a state. *)
Definition resolve_device (d : device_arg) (w : world) : res Z :=
  match d with
  | DevNone => Ok (current_device w)
  | DevIndex i => Ok i
  | DevTorch type index =>
      if String.eqb type "cuda"
      then Ok (default (current_device w) index)
      else Raise AssertionError
  end.

Section Operations.
Variable copy_elements :
  tensor → list scalar → tensor → list scalar → res (list scalar).

(** The entry points of the module as operations on the process state, and
    the caller switching the current device. *)
Inductive module_op :=
| OpGetEnv (d : device_arg)
| OpSimpleMake (c : callable) (example_inputs example_kwarg_inputs : pyval)
| OpMake (c : callable) (example_inputs example_kwarg_inputs : pyval)
    (execution_env : GraphExecutionEnv)
| OpReplay (g : GraphedModule) (inputs : list pyval)
    (kwarg_inputs : list (string * pyval))
| OpDynamic (dw : dynamic_wrapper) (args : list pyval)
    (kwargs : list (string * pyval))
| OpSetDevice (i : Z).

Definition run_op (op : module_op) (w : world) : world :=
  match op with
  | OpGetEnv d => (get_per_device_graph_execution_env d w).2
  | OpSimpleMake c ei ek => (simple_make_graphed_callable c ei ek w).2
  | OpMake c ei ek env => (make_graphed_callable c ei ek env w).2
  | OpReplay g i k => (functionalized copy_elements g i k w).2
  | OpDynamic dw a k => (dynamic_graphed_callable copy_elements a k (dw, w)).2.2
  | OpSetDevice i =>
      World (w_heap w) (per_device_execution_envs w) i (device_count w)
            (current_stream w) (next_handle w) (capture_calls w)
  end.

Definition run_ops (ops : list module_op) (w : world) : world :=
  foldl (λ w op, run_op op w) w ops.

(** Later replays of one wrapper, whatever each of them returns. *)
Definition replays (g : GraphedModule)
    (calls : list (list pyval * list (string * pyval))) (w : world) : world :=
  foldl (λ w call, (forward copy_elements g call.1 call.2 w).2) w calls.

(** A wrapper's state after any number of further invocations, with
    arbitrary changes of the process state in between. *)
Inductive evolves : dynamic_wrapper * world → dynamic_wrapper * world → Prop :=
| evolves_refl s : evolves s s
| evolves_call s s' args kwargs :
    evolves s s' →
    evolves s (dynamic_graphed_callable copy_elements args kwargs s').2
| evolves_world s s' w :
    evolves s s' → evolves s (s'.1, w).

End Operations.

(** * Concrete instances *)

(** A [copy_] that takes the elements of a source of the same shape, fills
    the destination with the element of a 0-dim source, and refuses other
    shapes. *)
Definition copy_same_shape (d : tensor) (dd : list scalar) (s : tensor)
    (sd : list scalar) : res (list scalar) :=
  if bool_decide (shape d = shape s) then Ok sd
  else match shape s, sd with
       | [], [x] => Ok (map (λ _, x) dd)
       | _, _ => Raise RuntimeError
       end.

(** A callable that returns its positional arguments; an [nn.Module] in
    training mode, and a plain function with a [training] attribute. *)
Definition module_callable : callable :=
  Callable true (Some true) (λ args _, ret (VTuple args)) (λ _ _ h, h).
Definition plain_callable : callable :=
  Callable false (Some true) (λ args _, ret (VTuple args)) (λ _ _ h, h).


Definition gpu_f32 : tensor := Tensor "cuda" (Some 0) dt_float32 [2] 0 true.
Definition gpu_f16 : tensor := Tensor "cuda" (Some 0) dt_float16 [2] 1 true.
Definition cpu_one : tensor := Tensor "cpu" None dt_int64 [] 2 true.
Definition gpu_out : tensor := Tensor "cuda" (Some 0) dt_float32 [2] 3 true.

Definition gpu_b : tensor := Tensor "cuda" (Some 0) dt_float32 [2] 4 true.

Definition heap0 : heap :=
  [[SInt 1; SInt 2]; [SInt 3; SInt 4]; [SInt 7]; [SInt 5; SInt 6];
   [SInt 8; SInt 9]].

Definition world0 : world := World heap0 ∅ 0 1 (λ _, 0%nat) 1%nat 0%nat.

(** A replay wrapper for [f(x) = x * 2] captured in [heap0]: the static input
    is [gpu_f32], the static output [gpu_out], and the recorded work writes
    the doubled elements of the input buffer into the output buffer. *)
Definition double_scalar (x : scalar) : scalar :=
  match x with SInt z => SInt (2 * z) | _ => x end.

Definition doubling_graph : CUDAGraph :=
  MkCUDAGraph (λ h, <[3%nat := map double_scalar (default [] (h !! 0%nat))]> h) 5.

Definition doubling_module : GraphedModule :=
  MkGraphedModule module_callable (MkGraphExecutionEnv 1 0 2 3) doubling_graph
    (VTuple [VTensor gpu_f32]) (VDict []) (VTensor gpu_out) true.

(** * Further vocabulary *)

(** The keys are of one kind, so that [sorted] can compare them. *)
Definition one_kind (ks : list pykey) : bool :=
  match ks with
  | [] => true
  | k :: ks' => forallb (λ k', bool_decide (key_kind k' = key_kind k)) ks'
  end.

(** Every dict that [hash_arg] visits in the value (through the elements of
    sequences and the values of dicts) has keys of one kind. *)
Fixpoint orderable (v : pyval) : bool :=
  match v with
  | VTuple l | VList l => forallb orderable l
  | VDict d => forallb (λ kv, orderable kv.2) d && one_kind (map fst d)
  | _ => true
  end.

(** The device index of a tensor if it is on a CUDA device. *)
Definition cuda_index (t : tensor) : option Z :=
  if String.eqb (device_type t) "cuda" then device_index t else None.

(** The store has the same extent and the same buffers outside the
    addresses [S]. *)
Definition unchanged_outside (S : list nat) (h h' : heap) : Prop :=
  length h' = length h ∧ ∀ a, a ∉ S → h' !! a = h !! a.

(** The handles of an environment, and the registry in order: every
    environment is registered under its own device index, its three handles
    are distinct and already handed out, and environments of different
    devices share none. *)
Definition env_handles (e : GraphExecutionEnv) : list nat :=
  [mempool e; stream e; lock e].

Definition registry_wf (w : world) : Prop :=
  (∀ i e, per_device_execution_envs w !! i = Some e →
          device e = i ∧ NoDup (env_handles e) ∧
          Forall (λ n, (n < next_handle w)%nat) (env_handles e)) ∧
  (∀ i j e e', i ≠ j →
          per_device_execution_envs w !! i = Some e →
          per_device_execution_envs w !! j = Some e' →
          env_handles e ## env_handles e').

Definition registry_wf_kept (w w' : world) : Prop :=
  registry_wf w → registry_wf w'.

(** No key of the cache equals a key stored after it. *)
Definition cache_keys_distinct (cache : list (pyval * GraphedModule)) : Prop :=
  ∀ i j k1 k2, (i < j)%nat → cache.*1 !! i = Some k1 → cache.*1 !! j = Some k2 →
               py_eq k1 k2 = false.

(** The capture counter is as it was. *)
Definition counter_kept (w w' : world) : Prop :=
  capture_calls w' = capture_calls w.

(** The store has not shrunk. *)
Definition heap_grows (w w' : world) : Prop :=
  (length (w_heap w) ≤ length (w_heap w'))%nat.

(** A callable that keeps the store's extent: no invocation frees a buffer,
    and an invocation on allocated arguments returns allocated tensors. *)
Definition keeps_allocation (c : callable) : Prop :=
  (∀ a k h, (length h ≤ length (c_run c a k h).2)%nat) ∧
  (∀ a k h out h',
     Forall (λ x, Forall (λ j, (j < length h)%nat) (addrs x)) a →
     Forall (λ sv : string * pyval, Forall (λ j, (j < length h)%nat) (addrs sv.2)) k →
     c_run c a k h = (Ok out, h') →
     Forall (λ j, (j < length h')%nat) (addrs out)).

(** * Properties *)

(** ** Results *)

Lemma res_map_ok {A B} (f : A → res B) (g : A → B) (l : list A) :
  Forall (λ x, f x = Ok (g x)) l → res_map f l = Ok (map g l).
Proof.
  induction 1 as [|x l Hx _ IH]; simpl; [done|]. by rewrite Hx, IH.
Qed.

Lemma res_map_ext {A B} (f g : A → res B) (l : list A) :
  Forall (λ x, f x = g x) l → res_map f l = res_map g l.
Proof.
  induction 1 as [|x l Hx _ IH]; simpl; [done|]. by rewrite Hx, IH.
Qed.

Lemma res_map_cases {A B} (f : A → res B) (l : list A) :
  (∃ ys, res_map f l = Ok ys ∧ Forall2 (λ x y, f x = Ok y) l ys) ∨
  (∃ e x, res_map f l = Raise e ∧ x ∈ l ∧ f x = Raise e).
Proof.
  induction l as [|x l IH]; simpl.
  - left. eexists. split; [done|constructor].
  - destruct (f x) as [y|e] eqn:Hx; simpl.
    + destruct IH as [(ys & -> & Hys)|(e & x' & -> & Hin & Hx')]; simpl.
      * left. eexists. split; [done|]. by constructor.
      * right. exists e, x'. split_and!; [done| by right | done].
    + right. exists e, x. split_and!; [done| by left | done].
Qed.

(** ** Order of keys *)






(** [<] is defined exactly between keys of one kind. *)
Lemma key_lt_kind (a b : pykey) :
  if decide (key_kind a = key_kind b)
  then ∃ r, key_lt a b = Ok r else key_lt a b = Raise TypeError.
Proof. destruct a, b; simpl; eauto. Qed.



(** ** The sort *)

Section Sorting.
Context {V : Type}.
Implicit Types (x y : pykey * V) (acc l : list (pykey * V)).



Lemma insort_raise x y acc :
  key_kind x.1 ≠ key_kind y.1 → insort x (y :: acc) = Raise TypeError.
Proof.
  intros Hk. simpl. pose proof (key_lt_kind x.1 y.1) as H.
  case_decide; [done|]. by rewrite H.
Qed.

Lemma insort_same_kind K x acc :
  key_kind x.1 = K → Forall (λ e, key_kind e.1 = K) acc →
  ∃ r, insort x acc = Ok r ∧ r ≡ₚ x :: acc.
Proof.
  intros Hx. induction 1 as [|y acc Hy _ (r & Hr & Hperm)]; simpl.
  - eauto.
  - pose proof (key_lt_kind x.1 y.1) as H.
    case_decide; [|congruence]. destruct H as (b & ->). simpl.
    destruct b; [eauto|].
    rewrite Hr. simpl. eexists. split; [done|].
    rewrite Hperm. apply Permutation_swap.
Qed.



Lemma sorted_from_raise K acc l :
  acc ≠ [] → Forall (λ e, key_kind e.1 = K) acc →
  ¬ Forall (λ e, key_kind e.1 = K) l →
  sorted_from acc l = Raise TypeError.
Proof.
  revert acc. induction l as [|x l IH]; intros acc Hne Hacc Hl; simpl.
  - destruct Hl. constructor.
  - destruct (decide (key_kind x.1 = K)) as [Hx|Hx].
    + destruct (insort_same_kind K x acc Hx Hacc) as (r & Hr & Hperm).
      rewrite Hr. simpl. apply IH.
      * intros ->. by apply Permutation_nil_cons in Hperm.
      * rewrite Hperm. by constructor.
      * intros Hf. apply Hl. by constructor.
    + destruct acc as [|y acc]; [done|].
      apply Forall_cons in Hacc as [Hy _].
      rewrite insort_raise; [done|congruence].
Qed.



End Sorting.

Lemma insort_perm {V} (x : pykey * V) acc r : insort x acc = Ok r → r ≡ₚ x :: acc.
Proof.
  revert r. induction acc as [|y acc IH]; simpl; intros r.
  - by intros [= <-].
  - destruct (key_lt x.1 y.1) as [[]|]; simpl; try done.
    + by intros [= <-].
    + destruct (insort x acc) as [r'|]; simpl; [|done].
      intros [= <-]. rewrite (IH r' eq_refl). apply Permutation_swap.
Qed.

Lemma sorted_by_key_Permutation {V} (l s : list (pykey * V)) :
  sorted_by_key l = Ok s → s ≡ₚ l.
Proof.
  unfold sorted_by_key. change l with ([] ++ l) at 2.
  generalize (@nil (pykey * V)). revert s.
  induction l as [|x l IH]; simpl; intros s acc.
  - intros [= <-]. by rewrite app_nil_r.
  - destruct (insort x acc) as [r|] eqn:Hr; simpl; [|done].
    intros Hs. rewrite (IH _ _ Hs), (insort_perm _ _ _ Hr).
    simpl. by rewrite Permutation_middle.
Qed.

(** ** The fingerprint *)

Lemma hash_arg_tuple h l :
  hash_arg h (VTuple l) = let? fs := res_map (hash_arg h) l in Ok (VTuple fs).
Proof. reflexivity. Qed.

Lemma hash_arg_list h l :
  hash_arg h (VList l) = let? fs := res_map (hash_arg h) l in Ok (VTuple fs).
Proof. reflexivity. Qed.

Lemma hash_arg_dict h d :
  hash_arg h (VDict d) =
  let? pairs := res_map (λ kv, let? f := hash_arg h kv.2 in Ok (kv.1, f)) d in
  let? s := sorted_by_key pairs in
  Ok (VTuple (map (λ kf, hash_fingerprint (VTuple [key_val kf.1; kf.2])) s)).
Proof. reflexivity. Qed.

Lemma item_ok h t : numel h t = 1%nat → ∃ x, item h t = Ok (scalar_val x).
Proof.
  unfold numel, item. destruct (tensor_data h t) as [|x [|]]; try done. eauto.
Qed.

Lemma hash_arg_tensor h t :
  ∃ fifth,
    hash_arg h (VTensor t) =
      Ok (VTuple [VStr (device_type t); index_val (device_index t);
                  VDtype (dtype t); VTuple (map VInt (shape t)); fifth]) ∧
    (if is_cpu t && (numel h t =? 1)%nat
     then item h t = Ok fifth ∧ fifth ≠ VNone else fifth = VNone).
Proof.
  simpl. unfold is_cpu.
  destruct (String.eqb (device_type t) "cpu" && (numel h t =? 1)%nat) eqn:E.
  - apply andb_true_iff in E as [_ E]. apply Nat.eqb_eq in E.
    destruct (item_ok h t E) as [x Hx]. rewrite Hx. simpl.
    eexists. split; [done|]. split; [done|]. by destruct x.
  - simpl. eauto.
Qed.


Lemma res_map_Forall {A B} (f : A → res B) (P : B → Prop) l ys :
  res_map f l = Ok ys → Forall (λ x, ∀ y, f x = Ok y → P y) l → Forall P ys.
Proof.
  intros Hm HP. revert ys Hm.
  induction HP as [|x l Hx _ IH]; simpl; intros ys.
  - intros [= <-]. constructor.
  - destruct (f x) as [y|]; simpl; [|done].
    destruct (res_map f l) as [ys'|]; simpl; [|done].
    intros [= <-]. constructor; eauto.
Qed.

Lemma hash_fingerprint_is_fingerprint v : is_fingerprint (hash_fingerprint v) = true.
Proof.
  induction v as [| | | | | |l IH|l IH|d IH| | |] using pyval_nested_ind; try done.
  - simpl. apply forallb_forall. intros y Hy. apply in_map_iff in Hy as (x & <- & Hx).
    rewrite Forall_forall in IH. apply IH. by apply list_elem_of_In.
  - simpl. apply forallb_forall. intros y Hy. apply in_map_iff in Hy as (x & <- & Hx).
    rewrite Forall_forall in IH. apply IH. by apply list_elem_of_In.
Qed.

Lemma forallb_Forall_true {A} (p : A → bool) l :
  forallb p l = true ↔ Forall (λ x, p x = true) l.
Proof.
  rewrite forallb_forall, Forall_forall.
  split; intros H x Hx; apply H; by apply list_elem_of_In.
Qed.

Lemma shape_is_fingerprint (l : list Z) : forallb is_fingerprint (map VInt l) = true.
Proof. by induction l. Qed.

(** What [hash_arg] returns is a fingerprint value. *)
Lemma hash_arg_is_fingerprint h v fp :
  hash_arg h v = Ok fp → is_fingerprint fp = true.
Proof.
  revert fp. induction v as [| | | | | |l IH|l IH|d IH| | |] using pyval_nested_ind;
    intros fp; try (by intros [= <-]).
  - rewrite hash_arg_tuple. destruct (res_map (hash_arg h) l) as [fs|] eqn:E; simpl; [|done].
    intros [= <-]. simpl. apply forallb_Forall_true.
    eapply res_map_Forall; [exact E|]. eapply Forall_impl; [exact IH|]. eauto.
  - rewrite hash_arg_list. destruct (res_map (hash_arg h) l) as [fs|] eqn:E; simpl; [|done].
    intros [= <-]. simpl. apply forallb_Forall_true.
    eapply res_map_Forall; [exact E|]. eapply Forall_impl; [exact IH|]. eauto.
  - rewrite hash_arg_dict.
    destruct (res_map _ d) as [ps|]; simpl; [|done].
    destruct (sorted_by_key ps) as [s|]; simpl; [|done].
    intros [= <-]. simpl. apply forallb_Forall_true, Forall_forall.
    intros y Hy. apply list_elem_of_fmap in Hy as (kf & -> & _).
    apply (hash_fingerprint_is_fingerprint (VTuple [key_val kf.1; kf.2])).
  - destruct (hash_arg_tensor h t) as (fifth & -> & Hf). intros [= <-]. simpl.
    rewrite shape_is_fingerprint.
    destruct (is_cpu t && (numel h t =? 1)%nat).
    + destruct Hf as [Hi _]. unfold item in Hi.
      destruct (tensor_data h t) as [|x [|]]; try done.
      inversion Hi. destruct (device_index t), x; done.
    + subst. by destruct (device_index t).
Qed.

(** On a fingerprint value [hash_arg] is [hash_fingerprint]. *)
Lemma hash_arg_on_fingerprint h f :
  is_fingerprint f = true → hash_arg h f = Ok (hash_fingerprint f).
Proof.
  induction f as [| | | | | |l IH|l IH|d IH| | |] using pyval_nested_ind;
    try done.
  simpl is_fingerprint. rewrite forallb_Forall_true. intros Hl.
  rewrite hash_arg_tuple. simpl hash_fingerprint.
  rewrite (res_map_ok _ hash_fingerprint); [done|].
  rewrite Forall_forall in *. eauto.
Qed.

(** The dict case as the source has it: [hash_arg] is mapped over the sorted
    pairs [(k, hash_arg(v))]. *)
Lemma hash_arg_on_pair h d :
  hash_arg h (VDict d) =
  let? pairs := res_map (λ kv, let? f := hash_arg h kv.2 in Ok (kv.1, f)) d in
  let? s := sorted_by_key pairs in
  let? fs := res_map (hash_arg h) (map (λ kf, VTuple [key_val kf.1; kf.2]) s) in
  Ok (VTuple fs).
Proof.
  rewrite hash_arg_dict.
  destruct (res_map _ d) as [ps|] eqn:Hps; simpl; [|done].
  destruct (sorted_by_key ps) as [s|] eqn:Hs; simpl; [|done].
  rewrite (res_map_ok _ hash_fingerprint).
  { simpl. by rewrite map_map. }
  apply Forall_forall. intros y Hy.
  apply list_elem_of_fmap in Hy as (kf & -> & Hkf).
  apply hash_arg_on_fingerprint. simpl.
  assert (is_fingerprint kf.2 = true) as ->.
  { apply sorted_by_key_Permutation in Hs. rewrite Hs in Hkf.
    assert (Forall (λ p : pykey * pyval, is_fingerprint p.2 = true) ps) as Hall.
    { eapply res_map_Forall; [exact Hps|]. apply Forall_forall.
      intros kv _ p. destruct (hash_arg h kv.2) eqn:E; simpl; [|done].
      intros [= <-]. by eapply hash_arg_is_fingerprint. }
    rewrite Forall_forall in Hall. by apply Hall. }
  by destruct kf as [[] ?].
Qed.



Lemma res_map_keys h d ps :
  res_map (λ kv : pykey * pyval, let? f := hash_arg h kv.2 in Ok (kv.1, f)) d = Ok ps →
  map fst ps = map fst d.
Proof.
  revert ps. induction d as [|kv d IH]; simpl; intros ps.
  - by intros [= <-].
  - destruct (hash_arg h kv.2); simpl; [|done].
    destruct (res_map _ d) as [ps'|]; simpl; [|done].
    intros [= <-]. simpl. f_equal. by apply IH.
Qed.




(** C6: the fingerprint of a tensor is the five-tuple of device type, device
    index, dtype, shape and a fifth field that is the element of the buffer
    when the tensor is on the CPU and holds one element, and [None]
    otherwise. *)
Theorem hash_arg_buffer_five_tuple (h : heap) (t : tensor) :
  ∃ fifth,
    hash_arg h (VTensor t) =
      Ok (VTuple [VStr (device_type t); index_val (device_index t);
                  VDtype (dtype t); VTuple (map VInt (shape t)); fifth]) ∧
    (if is_cpu t && (numel h t =? 1)%nat
     then item h t = Ok fifth ∧ fifth ≠ VNone else fifth = VNone).
Proof.
  simpl. unfold is_cpu.
  destruct (String.eqb (device_type t) "cpu" && (numel h t =? 1)%nat) eqn:E.
  - apply andb_true_iff in E as [_ E]. apply Nat.eqb_eq in E.
    destruct (item_ok h t E) as [x Hx]. rewrite Hx. simpl.
    eexists. split; [done|]. split; [done|]. by destruct x.
  - simpl. eauto.
Qed.




(** C2: in a keyword argument the dtype of a tensor does not reach the
    fingerprint. *)
Theorem kwargs_fingerprint_forgets_dtype (h : heap) (args : list pyval)
    (name : string) (t : tensor) (dt : torch_dtype) :
  call_key h args [(name, VTensor t)] =
  call_key h args
    [(name, VTensor (Tensor (device_type t) (device_index t) dt (shape t) (storage t)
                            (is_leaf t)))].
Proof.
  unfold call_key, kwargs_val. simpl map. rewrite !hash_arg_dict.
  destruct (hash_arg h (VTuple args)); simpl; [|done].
  unfold numel, item, tensor_data. simpl.
  destruct (String.eqb (device_type t) "cpu" && _); simpl; [|done].
  by destruct (default [] (h !! storage t)) as [|x [|]].
Qed.

(** ** Equality of fingerprints *)

Lemma num_eqb_eq a b : num_eqb a b = true → a = b.
Proof.
  destruct a, b; simpl; try done.
  - rewrite !andb_true_iff. intros [[H1 H2] H3].
    apply Bool.eqb_prop in H1. apply Pos.eqb_eq in H2. apply Z.eqb_eq in H3.
    by subst.
  - intros H. apply Bool.eqb_prop in H. by subst.
Qed.

Lemma num_eqb_sym a b : num_eqb a b = num_eqb b a.
Proof.
  destruct a as [|s1 m1 e1|s1|], b as [|s2 m2 e2|s2|]; simpl; try done.
  - rewrite (Pos.eqb_sym m1), (Z.eqb_sym e1). by destruct s1, s2.
  - by destruct s1, s2.
Qed.

Lemma dtype_eqb_eq a b : dtype_eqb a b = true → a = b.
Proof. by destruct a, b. Qed.

Lemma py_eq_tuple_cons x y l1 l2 :
  py_eq (VTuple (x :: l1)) (VTuple (y :: l2)) =
  py_eq x y && py_eq (VTuple l1) (VTuple l2).
Proof. reflexivity. Qed.

Lemma py_eq_numeric a b :
  is_Some (py_num a) →
  py_eq a b = match py_num a, py_num b with
              | Some x, Some y => num_eqb x y
              | _, _ => false
              end.
Proof. intros [x Hx]. destruct a; try done; by destruct b. Qed.

Lemma py_eq_numeric_r a b :
  is_Some (py_num b) → py_eq a b = true →
  ∃ x, py_num a = Some x ∧ py_num b = Some x.
Proof.
  intros [y Hy] H. destruct b; try done; destruct a; try done; simpl in *;
    apply num_eqb_eq in H; rewrite H; eauto.
Qed.

Lemma py_eq_trans b : is_fingerprint b = true →
  ∀ a c, py_eq a b = true → py_eq b c = true → py_eq a c = true.
Proof.
  induction b as [| | | | | |l IH|l IH|d IH| | |] using pyval_nested_ind;
    intros Hb a c Hab Hbc; try done.
  - destruct a; try done. 
  - destruct (py_eq_numeric_r a (VBool b)) as (x & Ha & Hb'); [by eexists|done|].
    rewrite py_eq_numeric in Hbc by (by eexists). rewrite Hb' in Hbc.
    rewrite py_eq_numeric by (by eexists). by rewrite Ha.
  - destruct (py_eq_numeric_r a (VInt z)) as (x & Ha & Hb'); [by eexists|done|].
    rewrite py_eq_numeric in Hbc by (by eexists). rewrite Hb' in Hbc.
    rewrite py_eq_numeric by (by eexists). by rewrite Ha.
  - destruct (py_eq_numeric_r a (VFloat f)) as (x & Ha & Hb'); [by eexists|done|].
    rewrite py_eq_numeric in Hbc by (by eexists). rewrite Hb' in Hbc.
    rewrite py_eq_numeric by (by eexists). by rewrite Ha.
  - destruct a; try done. destruct c; try done. simpl in *.
    apply String.eqb_eq in Hab, Hbc. apply String.eqb_eq. congruence.
  - destruct a; try done. destruct c; try done. simpl in *. unfold bytes_eqb in *.
    apply bool_decide_eq_true in Hab, Hbc. apply bool_decide_eq_true. congruence.
  - destruct a as [| | | | | |la| | | | |]; try done.
    destruct c as [| | | | | |lc| | | | |]; try done.
    simpl in Hb. apply forallb_Forall_true in Hb.
    revert la lc Hab Hbc.
    induction l as [|y l IHl]; intros la lc Hab Hbc.
    + destruct la; [|done]. done.
    + destruct la as [|x la]; [done|]. destruct lc as [|z lc]; [done|].
      rewrite py_eq_tuple_cons in *. apply andb_true_iff in Hab as [H1 H2].
      apply andb_true_iff in Hbc as [H3 H4].
      apply Forall_cons in IH as [IHy IH]. apply Forall_cons in Hb as [Hy Hb].
      apply andb_true_iff. split; [by eapply IHy|by eapply IHl].
  - destruct a; try done. destruct c; try done. simpl in *.
    apply dtype_eqb_eq in Hab, Hbc. subst. by destruct d1.
Qed.

Lemma py_eq_sym a : is_fingerprint a = true →
  ∀ v, py_eq a v = true → py_eq v a = true.
Proof.
  induction a as [| | | | | |l IH|l IH|d IH| | |] using pyval_nested_ind;
    intros Ha v Hab; try done.
  - by destruct v.
  - rewrite py_eq_numeric in Hab by (by eexists).
    destruct (py_num v) as [y|] eqn:Hy; [|done].
    rewrite py_eq_numeric by (rewrite Hy; by eexists). rewrite Hy. simpl.
    by rewrite num_eqb_sym.
  - rewrite py_eq_numeric in Hab by (by eexists).
    destruct (py_num v) as [y|] eqn:Hy; [|done].
    rewrite py_eq_numeric by (rewrite Hy; by eexists). rewrite Hy. simpl.
    by rewrite num_eqb_sym.
  - rewrite py_eq_numeric in Hab by (by eexists).
    destruct (py_num v) as [y|] eqn:Hy; [|done].
    rewrite py_eq_numeric by (rewrite Hy; by eexists). rewrite Hy. simpl.
    by rewrite num_eqb_sym.
  - destruct v; try done. simpl in *. apply String.eqb_eq in Hab. by apply String.eqb_eq.
  - destruct v; try done. simpl in *. unfold bytes_eqb in *.
    apply bool_decide_eq_true in Hab. by apply bool_decide_eq_true.
  - destruct v as [| | | | | |lb| | | | |]; try done.
    simpl in Ha. apply forallb_Forall_true in Ha.
    revert lb Hab. induction l as [|x l IHl]; intros lb Hab.
    + by destruct lb.
    + destruct lb as [|y lb]; [done|].
      rewrite py_eq_tuple_cons in *. apply andb_true_iff in Hab as [H1 H2].
      apply Forall_cons in IH as [IHx IH]. apply Forall_cons in Ha as [Hx Ha].
      apply andb_true_iff. split; [by apply IHx|by apply IHl].
  - destruct v as [| | | | | | | | | |d'|]; try done. simpl in *.
    apply dtype_eqb_eq in Hab. subst. by destruct d'.
Qed.

Lemma strip_twos_value m : ∀ e m' e',
  strip_twos m e = (m', e') → e ≤ e' ∧ Zpos m = Zpos m' * 2 ^ (e' - e).
Proof.
  induction m as [m IH|m IH|]; intros e m' e'; simpl.
  - intros [= <- <-]. rewrite Z.sub_diag. simpl. lia.
  - intros H. apply IH in H as [Hle Hv]. split; [lia|].
    rewrite Pos2Z.inj_xO, Hv.
    replace (e' - e) with (Z.succ (e' - (e + 1))) by lia.
    rewrite Z.pow_succ_r by lia. lia.
  - intros [= <- <-]. rewrite Z.sub_diag. simpl. lia.
Qed.

Lemma num_of_Z_inj a b : num_eqb (num_of_Z a) (num_of_Z b) = true → a = b.
Proof.
  intros H. apply num_eqb_eq in H.
  destruct a as [|p|p], b as [|q|q]; simpl in H; unfold num_fin in H;
    repeat match type of H with
           | context [strip_twos ?m ?e] =>
               let E := fresh "E" in
               destruct (strip_twos m e) as [? ?] eqn:E;
               apply strip_twos_value in E as [? ?]
           end; try done; inversion H; subst; f_equal; lia.
Qed.

Lemma py_eq_shape (s1 s2 : list Z) :
  py_eq (VTuple (map VInt s1)) (VTuple (map VInt s2)) = true → s1 = s2.
Proof.
  revert s2. induction s1 as [|x s1 IH]; intros [|y s2]; simpl map; try done.
  rewrite py_eq_tuple_cons. intros H. apply andb_true_iff in H as [H1 H2].
  simpl in H1. apply num_of_Z_inj in H1. subst. f_equal. by apply IH.
Qed.

(** A tensor passed on its own or inside tuples and lists keeps its dtype and
    shape in the fingerprint: equal fingerprints mean equal dtype and shape. *)
Lemma positional_fingerprint_keeps_dtype_and_shape h1 h2 t1 t2 f1 f2 :
  hash_arg h1 (VTensor t1) = Ok f1 → hash_arg h2 (VTensor t2) = Ok f2 →
  py_eq f1 f2 = true → dtype t1 = dtype t2 ∧ shape t1 = shape t2.
Proof.
  destruct (hash_arg_tensor h1 t1) as (x1 & -> & _).
  destruct (hash_arg_tensor h2 t2) as (x2 & -> & _).
  intros [= <-] [= <-]. rewrite !py_eq_tuple_cons, !andb_true_iff.
  intros (_ & _ & Hd & Hs & _). split.
  - by apply dtype_eqb_eq.
  - by apply py_eq_shape.
Qed.

(** ** Computations *)

Section Preserves.
Context {S : Type} (R : S → S → Prop) `{!Reflexive R, !Transitive R}.

Lemma preserves_ret {A} (a : A) : preserves R (ret a).
Proof. intros s. simpl. reflexivity. Qed.

Lemma preserves_raise {A} e : preserves R (@raise S A e).
Proof. intros s. simpl. reflexivity. Qed.

Lemma preserves_lift_res {A} (r : res A) : preserves R (lift_res r).
Proof. intros s. simpl. reflexivity. Qed.

Lemma preserves_gets {A} (f : S → A) : preserves R (gets f).
Proof. intros s. simpl. reflexivity. Qed.

Lemma preserves_py_assert b : preserves R (@py_assert S b).
Proof. destruct b; [apply preserves_ret|apply preserves_raise]. Qed.

Lemma preserves_bind {A B} (m : M S A) (k : A → M S B) :
  preserves R m → (∀ a, preserves R (k a)) → preserves R (bind m k).
Proof.
  intros Hm Hk s. unfold bind. specialize (Hm s).
  destruct (m s) as [[a|e] s']; simpl in *; [|done].
  etrans; [exact Hm|apply Hk].
Qed.

End Preserves.

Global Instance only_heap_changed_refl : Reflexive only_heap_changed.
Proof. by intros []. Qed.
Global Instance only_heap_changed_trans : Transitive only_heap_changed.
Proof. intros [] [] [] H1 H2. unfold only_heap_changed, set_heap in *. simpl in *. congruence. Qed.

Global Instance envs_kept_refl : Reflexive envs_kept.
Proof. by intros w i e. Qed.
Global Instance envs_kept_trans : Transitive envs_kept.
Proof. intros w1 w2 w3 H1 H2 i e Hi. eauto. Qed.

Lemma only_heap_changed_envs_kept w w' : only_heap_changed w w' → envs_kept w w'.
Proof. intros -> i e. done. Qed.

Lemma preserves_on_heap {A} (R : world → world → Prop) (m : M heap A) :
  (∀ w h, R w (set_heap h w)) → preserves R (on_heap m).
Proof.
  intros HR w. unfold on_heap, zoom. destruct (m (w_heap w)) as [r h']. apply HR.
Qed.

Lemma on_heap_only_heap {A} (m : M heap A) : preserves only_heap_changed (on_heap m).
Proof. apply preserves_on_heap. by intros [] h. Qed.

(** Goals [preserves R m] for a chain of binds, one step at a time. *)
Ltac preserves_step :=
  lazymatch goal with
  | |- ∀ _, _ => intros ?
  | |- preserves _ (bind _ _) => apply preserves_bind; [apply _| |]
  | |- preserves _ (ret _) => apply preserves_ret; apply _
  | |- preserves _ (raise _) => apply preserves_raise; apply _
  | |- preserves _ (lift_res _) => apply preserves_lift_res; apply _
  | |- preserves _ (gets _) => apply preserves_gets; apply _
  | |- preserves _ (py_assert _) => apply preserves_py_assert; apply _
  | |- preserves _ (match ?x with _ => _ end) => destruct x
  end.

Section Replay.
Variable copy_elements :
  tensor → list scalar → tensor → list scalar → res (list scalar).
Abbreviation forward := (forward copy_elements).
Abbreviation functionalized := (functionalized copy_elements).
Abbreviation dynamic_graphed_callable := (dynamic_graphed_callable copy_elements).
Abbreviation evolves := (evolves copy_elements).

Lemma forward_only_heap g inputs kwarg_inputs :
  preserves only_heap_changed (forward g inputs kwarg_inputs).
Proof.
  unfold forward, _forward.
  repeat first [ apply on_heap_only_heap | preserves_step ].
Qed.

(** ** The cache *)

Lemma cache_get_key cache k g :
  cache_get cache k = Some g → ∃ e, e ∈ map fst cache ∧ py_eq e k = true.
Proof.
  induction cache as [|[e g'] cache IH]; simpl; [done|].
  destruct (py_eq e k) eqn:E.
  - intros _. exists e. split; [by left|done].
  - intros H. destruct (IH H) as (e' & Hin & He). exists e'. split; [by right|done].
Qed.

Lemma cache_get_hit cache k e :
  e ∈ map fst cache → py_eq e k = true → is_Some (cache_get cache k).
Proof.
  induction cache as [|[e' g'] cache IH]; simpl; intros Hin He.
  - by apply elem_of_nil in Hin.
  - destruct (py_eq e' k) eqn:E; [by eexists|].
    apply elem_of_cons in Hin as [->|Hin]; [congruence|]. by apply IH.
Qed.

Lemma cache_set_keeps cache k g e :
  e ∈ map fst cache → e ∈ map fst (cache_set cache k g).
Proof.
  induction cache as [|[e' g'] cache IH]; simpl; intros Hin.
  - by apply elem_of_nil in Hin.
  - destruct (py_eq e' k); simpl; [done|].
    apply elem_of_cons in Hin as [->|Hin]; [by left|]. right. by apply IH.
Qed.

Lemma cache_set_has cache k g :
  ∃ e, e ∈ map fst (cache_set cache k g) ∧ (e = k ∨ py_eq e k = true).
Proof.
  induction cache as [|[e' g'] cache (e & Hin & He)]; simpl.
  - exists k. split; [by left|by left].
  - destruct (py_eq e' k) eqn:E; simpl.
    + exists e'. split; [by left|by right].
    + exists e. split; [by right|done].
Qed.

(** The three ways an invocation goes. *)
Lemma dynamic_key_raises s args kwargs e :
  call_key (w_heap s.2) args kwargs = Raise e →
  dynamic_graphed_callable args kwargs s = (Raise e, s).
Proof. intros H. unfold dynamic_graphed_callable, bind. by rewrite H. Qed.

Lemma dynamic_hit s args kwargs k g :
  call_key (w_heap s.2) args kwargs = Ok k →
  cache_get (cached_callables s.1) k = Some g →
  dynamic_graphed_callable args kwargs s =
  on_world (functionalized g args kwargs) s.
Proof.
  intros Hk Hg. unfold dynamic_graphed_callable, bind, gets, ret.
  rewrite Hk. simpl. rewrite Hg. by destruct (on_world _ s) as [[] ?].
Qed.

Lemma dynamic_miss s args kwargs k :
  call_key (w_heap s.2) args kwargs = Ok k →
  cache_get (cached_callables s.1) k = None →
  dynamic_graphed_callable args kwargs s =
  match simple_make_graphed_callable (dw_callable s.1) (VTuple args)
          (kwargs_val kwargs) s.2 with
  | (Ok g, w') =>
      on_world (functionalized g args kwargs)
        (MkDynamicWrapper (dw_callable s.1)
           (cache_set (cached_callables s.1) k g), w')
  | (Raise e, w') => (Raise e, (s.1, w'))
  end.
Proof.
  intros Hk Hg. unfold dynamic_graphed_callable, bind, gets, ret.
  rewrite Hk. simpl. rewrite !Hg. unfold on_world at 1, zoom. simpl.
  destruct (simple_make_graphed_callable _ _ _ _) as [[g|e] w']; simpl; [|done].
  by destruct (on_world _ _) as [[] ?].
Qed.

Lemma on_world_wrapper {A} (m : M world A) s : (on_world m s).2.1 = s.1.
Proof. unfold on_world, zoom. by destruct (m s.2). Qed.

Lemma on_world_world {A} (m : M world A) s : (on_world m s).2.2 = (m s.2).2.
Proof. unfold on_world, zoom. by destruct (m s.2). Qed.

Lemma on_world_result {A} (m : M world A) s : (on_world m s).1 = (m s.2).1.
Proof. unfold on_world, zoom. by destruct (m s.2). Qed.

Lemma dynamic_keeps_keys s args kwargs e :
  e ∈ map fst (cached_callables s.1) →
  e ∈ map fst (cached_callables (dynamic_graphed_callable args kwargs s).2.1).
Proof.
  intros Hin. destruct (call_key (w_heap s.2) args kwargs) as [k|e'] eqn:Hk.
  - destruct (cache_get (cached_callables s.1) k) as [g|] eqn:Hg.
    + rewrite (dynamic_hit _ _ _ _ _ Hk Hg), on_world_wrapper. done.
    + rewrite (dynamic_miss _ _ _ _ Hk Hg).
      destruct (simple_make_graphed_callable _ _ _ _) as [[g|e''] w']; simpl; [|done].
      rewrite on_world_wrapper. simpl. by apply cache_set_keeps.
  - by rewrite (dynamic_key_raises _ _ _ _ Hk).
Qed.

Lemma evolves_keeps_keys s s' e :
  evolves s s' → e ∈ map fst (cached_callables s.1) →
  e ∈ map fst (cached_callables s'.1).
Proof.
  induction 1 as [|s s' args kwargs _ IH|s s' w _ IH]; intros Hin; [done| |].
  - by apply dynamic_keeps_keys, IH.
  - by apply IH.
Qed.

Lemma dynamic_ok_key s args kwargs k out s1 :
  call_key (w_heap s.2) args kwargs = Ok k →
  dynamic_graphed_callable args kwargs s = (Ok out, s1) →
  ∃ e, e ∈ map fst (cached_callables s1.1) ∧ (e = k ∨ py_eq e k = true).
Proof.
  intros Hk Hd. destruct (cache_get (cached_callables s.1) k) as [g|] eqn:Hg.
  - rewrite (dynamic_hit _ _ _ _ _ Hk Hg) in Hd.
    destruct (cache_get_key _ _ _ Hg) as (e & Hin & He).
    exists e. split; [|by right].
    replace s1 with (on_world (functionalized g args kwargs) s).2 by by rewrite Hd.
    by rewrite on_world_wrapper.
  - rewrite (dynamic_miss _ _ _ _ Hk Hg) in Hd.
    destruct (simple_make_graphed_callable _ _ _ _) as [[g|e''] w']; [|done].
    destruct (cache_set_has (cached_callables s.1) k g) as (e & Hin & He).
    exists e. split; [|done].
    match type of Hd with ?m = _ => replace s1 with m.2 by by rewrite Hd end.
    by rewrite on_world_wrapper.
Qed.

Lemma call_key_is_fingerprint h args kwargs k :
  call_key h args kwargs = Ok k → is_fingerprint k = true.
Proof.
  unfold call_key.
  destruct (hash_arg h (VTuple args)) as [a|] eqn:Ha; cbn [res_bind]; [|done].
  destruct (hash_arg h (kwargs_val kwargs)) as [b|] eqn:Hb; cbn [res_bind]; [|done].
  intros [= <-]. cbn [is_fingerprint forallb].
  by rewrite (hash_arg_is_fingerprint _ _ _ Ha), (hash_arg_is_fingerprint _ _ _ Hb).
Qed.

End Replay.

(** ** The dynamic cache *)

(** C3, as the code has it: once an invocation has returned, every later
    invocation whose key equals that invocation's key finds a cached replay
    wrapper, runs it, enters [simple_make_graphed_callable] no further time
    and leaves the cache as it is. *)
Theorem cached_graph_is_reused copy_elements
    (s s1 s2 : dynamic_wrapper * world) (args1 args2 : list pyval)
    (kwargs1 kwargs2 : list (string * pyval)) (k1 k2 out1 : pyval) :
  call_key (w_heap s.2) args1 kwargs1 = Ok k1 →
  dynamic_graphed_callable copy_elements args1 kwargs1 s = (Ok out1, s1) →
  evolves copy_elements s1 s2 →
  call_key (w_heap s2.2) args2 kwargs2 = Ok k2 →
  py_eq k1 k2 = true →
  ∃ g, cache_get (cached_callables s2.1) k2 = Some g ∧
       dynamic_graphed_callable copy_elements args2 kwargs2 s2 =
         on_world (functionalized copy_elements g args2 kwargs2) s2 ∧
       capture_calls (dynamic_graphed_callable copy_elements args2 kwargs2 s2).2.2 =
         capture_calls s2.2 ∧
       (dynamic_graphed_callable copy_elements args2 kwargs2 s2).2.1 = s2.1.
Proof.
  intros Hk1 Hd Hev Hk2 Heq.
  pose proof (call_key_is_fingerprint _ _ _ _ Hk1) as Hf1.
  destruct (dynamic_ok_key _ _ _ _ _ _ _ Hk1 Hd) as (e & Hin & He).
  assert (py_eq e k2 = true) as He2.
  { destruct He as [->|He]; [done|]. by eapply (py_eq_trans k1). }
  apply (evolves_keeps_keys _ _ _ _ Hev) in Hin.
  destruct (cache_get_hit _ _ _ Hin He2) as [g Hg].
  exists g. split; [done|].
  rewrite (dynamic_hit _ _ _ _ _ _ Hk2 Hg). split; [done|].
  rewrite on_world_world, on_world_wrapper. split; [|done].
  pose proof (forward_only_heap copy_elements g args2 kwargs2 s2.2) as Hw.
  unfold functionalized. by rewrite Hw.
Qed.

Lemma cached_graph_is_reused_witness :
  let s := (make_dynamic_graphed_callable module_callable, world0) in
  let s1 := (dynamic_graphed_callable copy_same_shape [VTensor gpu_f32] [] s).2 in
  (dynamic_graphed_callable copy_same_shape [VTensor gpu_f32] [] s).1 =
    Ok (VTuple [VTensor (Tensor "cuda" (Some 0) dt_float32 [2] 9 true)]) ∧
  capture_calls s1.2 = 1%nat ∧
  ∃ g, cache_get (cached_callables s1.1)
         (VTuple [VTuple [VTuple [VStr "cuda"; VInt 0; VDtype dt_float32;
                                   VTuple [VInt 2]; VNone]]; VTuple []]) = Some g ∧
       dynamic_graphed_callable copy_same_shape [VTensor gpu_f32] [] s1 =
         on_world (functionalized copy_same_shape g [VTensor gpu_f32] []) s1 ∧
       capture_calls (dynamic_graphed_callable copy_same_shape [VTensor gpu_f32] [] s1).2.2 =
         capture_calls s1.2 ∧
       (dynamic_graphed_callable copy_same_shape [VTensor gpu_f32] [] s1).2.1 = s1.1.
Proof.
  intros s s1. split; [vm_compute; reflexivity|]. split; [vm_compute; reflexivity|].
  eapply (cached_graph_is_reused copy_same_shape s s1 s1 [VTensor gpu_f32]
            [VTensor gpu_f32] [] []).
  - vm_compute. reflexivity.
  - vm_compute. reflexivity.
  - apply evolves_refl.
  - vm_compute. reflexivity.
  - vm_compute. reflexivity.
Defined.

(** C3 as stated fails: an invocation whose capture raises caches nothing,
    and the next invocation with the same key enters
    [simple_make_graphed_callable] again. *)
Lemma capture_reentered_after_failed_capture :
  ¬ (∀ (s s2 : dynamic_wrapper * world) (args1 args2 : list pyval)
       (kwargs1 kwargs2 : list (string * pyval)) (k1 k2 : pyval),
       call_key (w_heap s.2) args1 kwargs1 = Ok k1 →
       evolves copy_same_shape
         (dynamic_graphed_callable copy_same_shape args1 kwargs1 s).2 s2 →
       call_key (w_heap s2.2) args2 kwargs2 = Ok k2 →
       py_eq k1 k2 = true →
       capture_calls (dynamic_graphed_callable copy_same_shape args2 kwargs2 s2).2.2 =
       capture_calls s2.2).
Proof.
  intros H.
  specialize (H (make_dynamic_graphed_callable module_callable, world0)
                (dynamic_graphed_callable copy_same_shape [VTensor cpu_one] []
                   (make_dynamic_graphed_callable module_callable, world0)).2
                [VTensor cpu_one] [VTensor cpu_one] [] [] _ _
                eq_refl (evolves_refl _ _) eq_refl eq_refl).
  vm_compute in H. discriminate H.
Qed.



(** C2 on a run: two calls whose keyword tensor differs in dtype only; the
    second call captures nothing and replays the graph of the first. *)
Lemma kwargs_dtype_reuses_graph :
  let s := (make_dynamic_graphed_callable module_callable, world0) in
  let s1 := (dynamic_graphed_callable copy_same_shape []
               [("x"%string, VTensor gpu_f32)] s).2 in
  let s2 := (dynamic_graphed_callable copy_same_shape []
               [("x"%string, VTensor gpu_f16)] s1).2 in
  call_key (w_heap s.2) [] [("x"%string, VTensor gpu_f32)] =
    call_key (w_heap s1.2) [] [("x"%string, VTensor gpu_f16)] ∧
  capture_calls s1.2 = 1%nat ∧ length (cached_callables s1.1) = 1%nat ∧
  capture_calls s2.2 = 1%nat ∧ length (cached_callables s2.1) = 1%nat.
Proof. vm_compute. repeat split. Qed.

(** ** The device resolver and the capture entry point *)

Lemma get_cuda_device_none x :
  has_cuda_buffer x = false → get_cuda_device_from_tensors x = None.
Proof.
  induction x as [| | | | | |l IH|l IH|d IH| | |] using pyval_nested_ind;
    try done.
  - simpl. induction IH as [|y l Hy _ IHl]; simpl; [done|].
    intros H. apply orb_false_iff in H as [H1 H2]. by rewrite (Hy H1), (IHl H2).
  - simpl. induction IH as [|y l Hy _ IHl]; simpl; [done|].
    intros H. apply orb_false_iff in H as [H1 H2]. by rewrite (Hy H1), (IHl H2).
  - simpl. induction IH as [|y l Hy _ IHl]; simpl; [done|].
    intros H. apply orb_false_iff in H as [H1 H2]. by rewrite (Hy H1), (IHl H2).
  - simpl. unfold is_cuda. by intros ->.
Qed.

(** C7: with no CUDA tensor anywhere in the example arguments,
    [simple_make_graphed_callable] raises [AssertionError] at once: the store,
    the registry and the handles are as before, only the entry is counted. *)
Theorem capture_without_cuda_buffer_fails (c : callable)
    (example_inputs example_kwarg_inputs : pyval) (w : world) :
  has_cuda_buffer (VTuple [example_inputs; example_kwarg_inputs]) = false →
  simple_make_graphed_callable c example_inputs example_kwarg_inputs w =
  (Raise AssertionError, set_capture_calls (S (capture_calls w)) w).
Proof.
  intros H. unfold simple_make_graphed_callable, bind, modify.
  by rewrite (get_cuda_device_none _ H).
Qed.

Lemma capture_without_cuda_buffer_fails_witness :
  has_cuda_buffer
    (VTuple [VTuple [VTensor cpu_one; VList [VInt 1; VDict [(KStr "a", VTensor cpu_one)]]];
             VNone]) = false ∧
  simple_make_graphed_callable module_callable
    (VTuple [VTensor cpu_one; VList [VInt 1; VDict [(KStr "a", VTensor cpu_one)]]])
    VNone world0 =
  (Raise AssertionError, World heap0 ∅ 0 1 (current_stream world0) 1%nat 1%nat).
Proof.
  split; [reflexivity|].
  apply (capture_without_cuda_buffer_fails module_callable). reflexivity.
Defined.

(** ** The registry *)

Lemma registered_env_cases i w :
  match per_device_execution_envs w !! i with
  | Some e => registered_env i w = (Ok e, w)
  | None =>
      if (i <? 0) || (i <? device_count w)
      then
        let e := MkGraphExecutionEnv (next_handle w) i
                   (S (next_handle w)) (S (S (next_handle w))) in
        registered_env i w =
        (Ok e, set_envs (<[i := e]> (per_device_execution_envs w))
                 (set_next_handle (S (S (S (next_handle w)))) w))
      else registered_env i w = (Raise RuntimeError, w)
  end.
Proof.
  unfold registered_env, bind, gets. simpl.
  destruct (per_device_execution_envs w !! i) as [e|] eqn:Hi; simpl.
  - by rewrite Hi.
  - unfold cuda_device_guard.
    destruct ((i <? 0) || (i <? device_count w)); simpl; [|done].
    by rewrite lookup_insert_eq.
Qed.

Lemma get_env_resolves d w :
  get_per_device_graph_execution_env d w =
  match resolve_device d w with
  | Ok i => registered_env i w
  | Raise e => (Raise e, w)
  end.
Proof.
  destruct d as [|i|type [i|]]; simpl; try done;
    unfold get_per_device_graph_execution_env, bind; simpl;
    by destruct (String.eqb type "cuda").
Qed.

Lemma registered_env_envs_kept i : preserves envs_kept (registered_env i).
Proof.
  intros w. pose proof (registered_env_cases i w) as H.
  destruct (per_device_execution_envs w !! i) as [e|] eqn:Hi.
  - rewrite H. reflexivity.
  - destruct ((i <? 0) || (i <? device_count w)); simpl in H; rewrite H; simpl;
      [|reflexivity].
    intros j e' Hj. simpl. rewrite lookup_insert_ne; [done|]. congruence.
Qed.

Lemma get_env_envs_kept d : preserves envs_kept (get_per_device_graph_execution_env d).
Proof.
  intros w. rewrite get_env_resolves.
  destruct (resolve_device d w); [apply registered_env_envs_kept|reflexivity].
Qed.

Lemma fresh_handle_envs_kept : preserves envs_kept fresh_handle.
Proof. by intros w i e. Qed.

Lemma cuda_device_guard_envs_kept d : preserves envs_kept (cuda_device_guard d).
Proof.
  intros w. unfold cuda_device_guard.
  destruct ((d <? 0) || (d <? device_count w)); reflexivity.
Qed.

Lemma on_heap_envs_kept {A} (m : M heap A) : preserves envs_kept (on_heap m).
Proof. apply preserves_on_heap. by intros w h i e. Qed.

Lemma py_call_envs_kept c args kwargs : preserves envs_kept (py_call c args kwargs).
Proof. unfold py_call. repeat first [apply on_heap_envs_kept | preserves_step]. Qed.

Lemma make_graphed_callable_envs_kept c ei ek env :
  preserves envs_kept (make_graphed_callable c ei ek env).
Proof.
  unfold make_graphed_callable, warmup_call.
  repeat first [ apply on_heap_envs_kept | apply py_call_envs_kept
               | apply fresh_handle_envs_kept | apply cuda_device_guard_envs_kept
               | preserves_step ].
Qed.

Lemma simple_make_envs_kept c ei ek :
  preserves envs_kept (simple_make_graphed_callable c ei ek).
Proof.
  unfold simple_make_graphed_callable.
  apply preserves_bind; [apply _| |intros _].
  - by intros w i e.
  - destruct (get_cuda_device_from_tensors _).
    + apply preserves_bind; [apply _|apply get_env_envs_kept|intros env].
      apply make_graphed_callable_envs_kept.
    + apply preserves_raise; apply _.
Qed.

Section Registry.
Variable copy_elements :
  tensor → list scalar → tensor → list scalar → res (list scalar).

Lemma functionalized_envs_kept g i k :
  preserves envs_kept (functionalized copy_elements g i k).
Proof.
  intros w. apply only_heap_changed_envs_kept, forward_only_heap.
Qed.

Lemma dynamic_envs_kept args kwargs s :
  envs_kept s.2 (dynamic_graphed_callable copy_elements args kwargs s).2.2.
Proof.
  destruct (call_key (w_heap s.2) args kwargs) as [k|e'] eqn:Hk.
  - destruct (cache_get (cached_callables s.1) k) as [g|] eqn:Hg.
    + rewrite (dynamic_hit _ _ _ _ _ _ Hk Hg), on_world_world.
      apply functionalized_envs_kept.
    + rewrite (dynamic_miss _ _ _ _ _ Hk Hg).
      pose proof (simple_make_envs_kept (dw_callable s.1) (VTuple args)
                    (kwargs_val kwargs) s.2) as H1.
      destruct (simple_make_graphed_callable _ _ _ _) as [[g|e''] w']; simpl in *;
        [|done].
      rewrite on_world_world. simpl. etrans; [exact H1|].
      apply functionalized_envs_kept.
  - rewrite (dynamic_key_raises _ _ _ _ _ Hk). reflexivity.
Qed.

Lemma run_op_envs_kept op w : envs_kept w (run_op copy_elements op w).
Proof.
  destruct op; simpl.
  - apply get_env_envs_kept.
  - apply simple_make_envs_kept.
  - apply make_graphed_callable_envs_kept.
  - apply functionalized_envs_kept.
  - apply (dynamic_envs_kept args kwargs (dw, w)).
  - by intros j e.
Qed.

Lemma run_ops_envs_kept ops w : envs_kept w (run_ops copy_elements ops w).
Proof.
  revert w. induction ops as [|op ops IH]; intros w; simpl; [reflexivity|].
  etrans; [apply run_op_envs_kept|apply IH].
Qed.

Lemma get_env_registered d w e w1 :
  get_per_device_graph_execution_env d w = (Ok e, w1) →
  ∃ i, resolve_device d w = Ok i ∧
       per_device_execution_envs w1 !! i = Some e ∧
       (per_device_execution_envs w !! i = None → device e = i).
Proof.
  rewrite get_env_resolves. destruct (resolve_device d w) as [i|]; [|done].
  intros H. exists i. split; [done|].
  pose proof (registered_env_cases i w) as Hc.
  destruct (per_device_execution_envs w !! i) as [e'|] eqn:Hi.
  - rewrite Hc in H. inversion H; subst. done.
  - destruct ((i <? 0) || (i <? device_count w)); simpl in Hc; rewrite Hc in H;
      [|done].
    inversion H; subst. simpl. by rewrite lookup_insert_eq.
Qed.

Lemma get_env_again d w i e :
  resolve_device d w = Ok i → per_device_execution_envs w !! i = Some e →
  get_per_device_graph_execution_env d w = (Ok e, w).
Proof.
  intros Hr Hi. rewrite get_env_resolves, Hr.
  pose proof (registered_env_cases i w) as Hc. by rewrite Hi in Hc.
Qed.

End Registry.

(** C4: the environment a call returns is registered under the resolved
    device index; through any later operations of the module it stays
    registered there with the same fields, and every later call that resolves
    to this index returns it and changes nothing, so no device gets a second
    environment. *)
Theorem execution_env_is_per_device_singleton copy_elements
    (d : device_arg) (w w1 : world) (e : GraphExecutionEnv) :
  get_per_device_graph_execution_env d w = (Ok e, w1) →
  ∃ i, resolve_device d w = Ok i ∧
       per_device_execution_envs w1 !! i = Some e ∧
       (per_device_execution_envs w !! i = None → device e = i) ∧
       ∀ ops,
         per_device_execution_envs (run_ops copy_elements ops w1) !! i = Some e ∧
         ∀ d', resolve_device d' (run_ops copy_elements ops w1) = Ok i →
               get_per_device_graph_execution_env d' (run_ops copy_elements ops w1) =
               (Ok e, run_ops copy_elements ops w1).
Proof.
  intros H. destruct (get_env_registered d w e w1 H) as (i & Hr & Hi & Hd).
  exists i. split_and!; try done. intros ops.
  pose proof (run_ops_envs_kept copy_elements ops w1 i e Hi) as Hn.
  split; [done|]. intros d' Hr'. by eapply get_env_again.
Qed.

Lemma execution_env_is_per_device_singleton_witness :
  let w1 := (get_per_device_graph_execution_env (DevTorch "cuda" None) world0).2 in
  let ops := [OpDynamic (make_dynamic_graphed_callable module_callable)
                [VTensor gpu_f32] [];
              OpGetEnv (DevIndex 0);
              OpSimpleMake plain_callable (VTuple [VTensor gpu_f16]) VNone] in
  get_per_device_graph_execution_env (DevTorch "cuda" None) world0 =
    (Ok (MkGraphExecutionEnv 1 0 2 3), w1) ∧
  per_device_execution_envs (run_ops copy_same_shape ops w1) !! 0 =
    Some (MkGraphExecutionEnv 1 0 2 3) ∧
  get_per_device_graph_execution_env DevNone (run_ops copy_same_shape ops w1) =
    (Ok (MkGraphExecutionEnv 1 0 2 3), run_ops copy_same_shape ops w1).
Proof.
  intros w1 ops.
  assert (get_per_device_graph_execution_env (DevTorch "cuda" None) world0 =
            (Ok (MkGraphExecutionEnv 1 0 2 3), w1)) as H by (vm_compute; reflexivity).
  split; [exact H|].
  destruct (execution_env_is_per_device_singleton copy_same_shape _ _ _ _ H)
    as (i & Hr & _ & _ & Hops).
  assert (i = 0) as -> by (vm_compute in Hr; congruence).
  destruct (Hops ops) as [H1 H2]. split; [exact H1|].
  apply H2. reflexivity.
Defined.

(** ** The capture protocol *)

Lemma bind_Ok {S A B} (m : M S A) (k : A → M S B) s b s' :
  bind m k s = (Ok b, s') → ∃ a s1, m s = (Ok a, s1) ∧ k a s1 = (Ok b, s').
Proof.
  unfold bind. destruct (m s) as [[a|e] s1]; [eauto|done].
Qed.

Lemma make_graphed_callable_fields c ei ek env w g w' :
  make_graphed_callable c ei ek env w = (Ok g, w') →
  training g = (if c_is_module c then default false (c_training c) else false) ∧
  gm_callable g = c ∧ gm_execution_env g = env ∧
  graph_extent (gm_fwd_graph g) = length (w_heap w').
Proof.
  unfold make_graphed_callable. intros H.
  repeat (apply bind_Ok in H as (? & ? & ? & H)).
  match goal with Hn : gets _ _ = _ |- _ => inversion Hn; subst end.
  inversion H; subst. done.
Qed.

(** C9, as the code has it: the replay wrapper of an [nn.Module] carries the
    [training] attribute the module has at capture ([False] without one); the
    wrapper of any other callable is in inference mode. *)
Theorem training_mode_recorded_for_modules (c : callable)
    (example_inputs example_kwarg_inputs : pyval)
    (execution_env : GraphExecutionEnv) (w w' : world) (g : GraphedModule) :
  make_graphed_callable c example_inputs example_kwarg_inputs execution_env w =
    (Ok g, w') →
  training g = (if c_is_module c then default false (c_training c) else false).
Proof.
  unfold make_graphed_callable. intros H.
  repeat (apply bind_Ok in H as (? & ? & _ & H)).
  by inversion H.
Qed.

Lemma training_mode_recorded_for_modules_witness :
  ∃ g w',
    make_graphed_callable module_callable (VTuple [VTensor gpu_f32]) VNone
      (MkGraphExecutionEnv 1 0 2 3) world0 = (Ok g, w') ∧
    c_training module_callable = Some true ∧ training g = true.
Proof.
  destruct (make_graphed_callable module_callable (VTuple [VTensor gpu_f32]) VNone
              (MkGraphExecutionEnv 1 0 2 3) world0) as [[g|e] w'] eqn:E.
  - exists g, w'. split; [reflexivity|]. split; [reflexivity|].
    exact (training_mode_recorded_for_modules _ _ _ _ _ _ _ E).
  - vm_compute in E. discriminate E.
Defined.

(** C9 as stated fails: a callable that is no [nn.Module] and has
    [training = True] gets a wrapper in inference mode. *)
Lemma training_mode_ignored_for_plain_callable :
  ¬ (∀ (c : callable) (b : bool) (example_inputs example_kwarg_inputs : pyval)
       (execution_env : GraphExecutionEnv) (w w' : world) (g : GraphedModule),
       c_training c = Some b →
       make_graphed_callable c example_inputs example_kwarg_inputs execution_env w =
         (Ok g, w') →
       training g = b).
Proof.
  intros H.
  destruct (make_graphed_callable plain_callable (VTuple [VTensor gpu_f32]) VNone
              (MkGraphExecutionEnv 1 0 2 3) world0) as [[g|e] w'] eqn:E.
  - pose proof (H plain_callable true _ _ _ _ _ _ eq_refl E) as Hg.
    apply make_graphed_callable_fields in E as (Ht & _).
    rewrite Ht in Hg. discriminate Hg.
  - vm_compute in E. discriminate E.
Qed.

(** ** Tree copy *)

Section TreeCopy.
Variable copy_elements :
  tensor → list scalar → tensor → list scalar → res (list scalar).
Abbreviation tree_copy_ := (tree_copy_ copy_elements).

Lemma tree_copy_seq_cons a b x ds y ys :
  tree_copy_ (py_seq a (x :: ds)) (py_seq b (y :: ys)) =
  (tree_copy_ x y ;; tree_copy_ (py_seq a ds) (py_seq b ys)).
Proof. by destruct a, b. Qed.

Lemma tree_copy_seq_nil_l a b ys :
  tree_copy_ (py_seq a []) (py_seq b ys) = tree_copy_ (py_seq a []) (py_seq b []).
Proof. by destruct a, b. Qed.

Lemma tree_copy_seq_nil_r a b ds :
  tree_copy_ (py_seq a ds) (py_seq b []) = tree_copy_ (py_seq a []) (py_seq b []).
Proof. by destruct a, b, ds. Qed.

End TreeCopy.

(** C1: a sequence destination and a sequence source of another length do
    not raise; [zip] pairs the common prefix, and the copy is that of the two
    prefixes. *)
Theorem tree_copy_pairs_prefix_only copy_elements (a b : bool) (ds ys : list pyval) :
  tree_copy_ copy_elements (py_seq a ds) (py_seq b ys) =
  tree_copy_ copy_elements (py_seq a (take (length ys) ds))
                           (py_seq b (take (length ds) ys)).
Proof.
  revert ys. induction ds as [|x ds IH]; intros ys.
  - simpl. rewrite take_nil. apply tree_copy_seq_nil_l.
  - destruct ys as [|y ys].
    + simpl take. apply tree_copy_seq_nil_r.
    + simpl. rewrite !tree_copy_seq_cons. by rewrite <- IH.
Qed.

(** C1 on an input: two static buffers, one source tensor; the call returns,
    the first buffer is overwritten and the second keeps its old elements. *)
Lemma tree_copy_shorter_source_returns :
  tree_copy_ copy_same_shape (VTuple [VTensor gpu_f32; VTensor gpu_out])
    (VTuple [VTensor gpu_f16]) heap0 =
  (Ok tt, [[SInt 3; SInt 4]; [SInt 3; SInt 4]; [SInt 7]; [SInt 5; SInt 6];
          [SInt 8; SInt 9]]).
Proof. reflexivity. Qed.

(** C1 on a replay: the wrapper of [f(x) = x * 2] called with no argument
    returns, with the doubled elements of the stale static input. *)
Lemma replay_with_missing_argument_returns :
  let r := forward copy_same_shape doubling_module [] [] world0 in
  r.1 = Ok (VTensor (Tensor "cuda" (Some 0) dt_float32 [2] 5 true)) ∧
  w_heap r.2 !! 5%nat = Some [SInt 2; SInt 4].
Proof. vm_compute. split; reflexivity. Qed.

(** ** Deep copy *)

Lemma tensor_data_prefix (h1 h2 : heap) t :
  h1 `prefix_of` h2 → (storage t < length h1)%nat →
  tensor_data h2 t = tensor_data h1 t.
Proof.
  intros [k ->] Hlt. unfold tensor_data. by rewrite lookup_app_l.
Qed.

Lemma map_tensor_data_prefix (h1 h2 : heap) (ts : list tensor) :
  h1 `prefix_of` h2 → Forall (λ a, (a < length h1)%nat) (map storage ts) →
  map (tensor_data h2) ts = map (tensor_data h1) ts.
Proof.
  intros Hp. induction ts as [|t ts IH]; simpl; [done|].
  intros Hall. apply Forall_cons in Hall as [Ht Hall].
  by rewrite (tensor_data_prefix _ _ _ Hp Ht), IH.
Qed.

Lemma memo_ok_prefix h0 memo h : memo_ok h0 memo h → h0 `prefix_of` h.
Proof. by intros [? _]. Qed.

Lemma clone_tensor_post h0 t memo h :
  memo_ok h0 memo h → (storage t < length h0)%nat →
  copy_post (λ t, [t])
    (λ t, Tensor (device_type t) (device_index t) (dtype t) (shape t) 0
            (is_leaf t))
    h0 t h (clone_tensor t memo h).
Proof.
  intros [Hp Hm] Hlt. unfold clone_tensor, copy_post.
  destruct (list_find _ memo) as [[j [a a']]|] eqn:Hf; simpl.
  - apply list_find_Some in Hf as (Hj & Ha & _). simpl in Ha. subst a.
    pose proof Hm as Hm'. rewrite Forall_forall in Hm'.
    destruct (Hm' (storage t, a')) as (_ & Hr & Hd).
    { apply list_elem_of_lookup. eauto. }
    simpl in *. split_and!; try done.
    + unfold tensor_data. simpl. by rewrite Hd.
    + constructor; [done|constructor].
  - assert (length h0 ≤ length h)%nat as Hle by (by apply prefix_length).
    split_and!.
    + split; [by apply prefix_app_r|].
      constructor; simpl.
      * split_and!; [done|done| |].
        -- rewrite length_app. simpl. lia.
        -- rewrite lookup_app_r by lia. rewrite Nat.sub_diag. simpl.
           f_equal. by rewrite (tensor_data_prefix h0 h t Hp Hlt).
      * eapply Forall_impl; [exact Hm|]. intros [a a'] (H1 & H2 & H3). simpl in *.
        split_and!; [done|lia| |].
        -- rewrite length_app. lia.
        -- rewrite lookup_app_l by lia. done.
    + by apply prefix_app_r.
    + done.
    + unfold tensor_data at 1. simpl.
      rewrite lookup_app_r by lia. rewrite Nat.sub_diag. simpl.
      by rewrite (tensor_data_prefix h0 h t Hp Hlt).
    + constructor; [|constructor]. rewrite length_app. simpl. lia.
Qed.

Lemma copy_items_post {A} (f : A → list (nat * nat) → heap → A * list (nat * nat) * heap)
    (ts : A → list tensor) (er : A → A) h0 l :
  Forall (λ x, ∀ memo h, memo_ok h0 memo h →
               Forall (λ a, (a < length h0)%nat) (map storage (ts x)) →
               copy_post ts er h0 x h (f x memo h)) l →
  ∀ memo h, memo_ok h0 memo h →
    Forall (λ a, (a < length h0)%nat) (map storage (flat_map ts l)) →
    copy_post (flat_map ts) (map er) h0 l h (copy_items f l memo h).
Proof.
  induction 1 as [|x l Hx _ IH]; intros memo h Hm Hall; simpl.
  - unfold copy_post. simpl. by split_and!.
  - simpl in Hall. rewrite map_app, Forall_app in Hall. destruct Hall as [Hax Hal].
    specialize (Hx memo h Hm Hax).
    destruct (f x memo h) as [[x' m1] h1]. 
    destruct Hx as (Hm1 & Hp1 & He1 & Hb1 & Hf1). simpl in *.
    specialize (IH m1 h1 Hm1 Hal).
    destruct (copy_items f l m1 h1) as [[r m2] h2].
    destruct IH as (Hm2 & Hp2 & He2 & Hb2 & Hf2). simpl in *.
    unfold copy_post. simpl. split_and!.
    + done.
    + by etrans.
    + by rewrite He1, He2.
    + rewrite !map_app, Hb2. f_equal. rewrite <- Hb1.
      apply map_tensor_data_prefix; [done|].
      eapply Forall_impl; [exact Hf1|]. simpl. lia.
    + rewrite map_app, Forall_app. split; [|done].
      eapply Forall_impl; [exact Hf1|]. simpl. intros a [? ?]. split; [done|].
      apply prefix_length in Hp2. lia.
Qed.

Lemma deepcopy_memo_post h0 v :
  ∀ memo h, memo_ok h0 memo h →
    Forall (λ a, (a < length h0)%nat) (addrs v) →
    copy_post tensors_of erase h0 v h (deepcopy_memo v memo h).
Proof.
  induction v as [| | | | | |l IH|l IH|d IH| | |] using pyval_nested_ind;
    intros memo h Hm Hall;
    try (unfold copy_post; simpl; by split_and!).
  - pose proof (copy_items_post deepcopy_memo tensors_of erase h0 l IH memo h Hm Hall) as H.
    simpl. destruct (copy_items deepcopy_memo l memo h) as [[l' m'] h'].
    destruct H as (H1 & H2 & H3 & H4 & H5). unfold copy_post. simpl in *.
    split_and!; try done. by rewrite H3.
  - pose proof (copy_items_post deepcopy_memo tensors_of erase h0 l IH memo h Hm Hall) as H.
    simpl. destruct (copy_items deepcopy_memo l memo h) as [[l' m'] h'].
    destruct H as (H1 & H2 & H3 & H4 & H5). unfold copy_post. simpl in *.
    split_and!; try done. by rewrite H3.
  - simpl.
    match goal with |- context [copy_items ?f d memo h] =>
      pose proof (copy_items_post f (λ kv, tensors_of kv.2)
                    (λ kv, (kv.1, erase kv.2)) h0 d) as H end.
    assert (Forall (λ x : pykey * pyval, ∀ memo h, memo_ok h0 memo h →
              Forall (λ a, (a < length h0)%nat) (map storage (tensors_of x.2)) →
              copy_post (λ kv : pykey * pyval, tensors_of kv.2)
                (λ kv, (kv.1, erase kv.2)) h0 x h
                (let '(x', memo', h') := deepcopy_memo x.2 memo h in
                 ((x.1, x'), memo', h'))) d) as Hd.
    { eapply Forall_impl; [exact IH|]. intros [k x] Hx m1 h1 Hm1 Ha. simpl in *.
      specialize (Hx m1 h1 Hm1 Ha).
      destruct (deepcopy_memo x m1 h1) as [[x' m2] h2].
      destruct Hx as (? & ? & ? & ? & ?). unfold copy_post. simpl in *.
      split_and!; try done. congruence. }
    specialize (H Hd memo h Hm Hall).
    destruct (copy_items _ d memo h) as [[d' m'] h'].
    destruct H as (H1 & H2 & H3 & H4 & H5).
    unfold copy_post. simpl in *. split_and!; try done. by rewrite H3.
  - pose proof (clone_tensor_post h0 t memo h Hm) as H. simpl.
    destruct (clone_tensor t memo h) as [[t' m'] h'].
    destruct H as (H1 & H2 & H3 & H4 & H5).
    { by apply Forall_cons in Hall as [? _]. }
    unfold copy_post. simpl in *. split_and!; try done. by rewrite H3.
Qed.

Lemma deepcopy_returns v h :
  forallb is_leaf (tensors_of v) = true → ∃ v' h', deepcopy v h = (Ok v', h').
Proof.
  intros Hl. unfold deepcopy. rewrite Hl.
  destruct (deepcopy_memo v [] h) as [[v' m] h']. eauto.
Qed.

Lemma deepcopy_raises v h e h' :
  deepcopy v h = (Raise e, h') → e = RuntimeError ∧ h' = h.
Proof.
  unfold deepcopy. destruct (forallb is_leaf (tensors_of v)).
  - by destruct (deepcopy_memo v [] h) as [[? ?] ?].
  - by intros [= <- <-].
Qed.

Lemma deepcopy_spec v h v' h' :
  deepcopy v h = (Ok v', h') →
  Forall (λ a, (a < length h)%nat) (addrs v) →
  h `prefix_of` h' ∧ erase v' = erase v ∧ buffers h' v' = buffers h v ∧
  Forall (λ a, (length h ≤ a < length h')%nat) (addrs v').
Proof.
  unfold deepcopy. intros H Hall.
  destruct (forallb is_leaf (tensors_of v)); [|done].
  pose proof (deepcopy_memo_post h v [] h) as Hp.
  destruct (deepcopy_memo v [] h) as [[v0 m] h0]. inversion H; subst.
  destruct Hp as (H1 & H2 & H3 & H4 & H5); [|done|done].
  split; [done|constructor].
Qed.

Lemma copy_items_prefix {A} (f : A → list (nat * nat) → heap → A * list (nat * nat) * heap) l :
  Forall (λ x, ∀ memo h, h `prefix_of` (f x memo h).2) l →
  ∀ memo h, h `prefix_of` (copy_items f l memo h).2.
Proof.
  induction 1 as [|x l Hx _ IH]; intros memo h; simpl; [done|].
  specialize (Hx memo h). destruct (f x memo h) as [[x' m1] h1].
  specialize (IH m1 h1). destruct (copy_items f l m1 h1) as [[r m2] h2].
  simpl in *. by etrans.
Qed.

Lemma deepcopy_memo_prefix v : ∀ memo h, h `prefix_of` (deepcopy_memo v memo h).2.
Proof.
  induction v as [| | | | | |l IH|l IH|d IH| | |] using pyval_nested_ind;
    intros memo h; try done.
  - pose proof (copy_items_prefix deepcopy_memo l IH memo h) as H. simpl.
    by destruct (copy_items deepcopy_memo l memo h) as [[l' m'] h'].
  - pose proof (copy_items_prefix deepcopy_memo l IH memo h) as H. simpl.
    by destruct (copy_items deepcopy_memo l memo h) as [[l' m'] h'].
  - simpl.
    match goal with |- context [copy_items ?f d memo h] =>
      pose proof (copy_items_prefix f d) as H end.
    assert (h `prefix_of` (copy_items
              (λ (kv : pykey * pyval) memo h,
                 let '(x', memo', h') := deepcopy_memo kv.2 memo h in
                 ((kv.1, x'), memo', h')) d memo h).2) as Hp.
    { apply H. eapply Forall_impl; [exact IH|]. intros [k x] Hx m1 h1. simpl in *.
      specialize (Hx m1 h1). by destruct (deepcopy_memo x m1 h1) as [[x' m2] h2]. }
    by destruct (copy_items _ d memo h) as [[d' m'] h'].
  - simpl. unfold clone_tensor.
    destruct (list_find _ memo) as [[j [a0 a1]]|]; simpl; [done|].
    by apply prefix_app_r.
Qed.

(** ** What a replay leaves untouched *)

Global Instance stable_from_refl b : Reflexive (stable_from b).
Proof. by intros h. Qed.
Global Instance stable_from_trans b : Transitive (stable_from b).
Proof.
  intros h1 h2 h3 [L1 H1] [L2 H2]. split; [lia|].
  intros a Hb Ha. rewrite H2 by lia. by apply H1.
Qed.
Global Instance heap_stable_from_refl b : Reflexive (heap_stable_from b).
Proof. intros w. unfold heap_stable_from. reflexivity. Qed.
Global Instance heap_stable_from_trans b : Transitive (heap_stable_from b).
Proof. intros w1 w2 w3. unfold heap_stable_from. apply stable_from_trans. Qed.

Lemma prefix_stable_from b (h h' : heap) : h `prefix_of` h' → stable_from b h h'.
Proof.
  intros Hp. split; [by apply prefix_length|].
  intros a _ Ha. symmetry. by apply prefix_lookup_lt.
Qed.

Lemma deepcopy_stable b v : preserves (stable_from b) (deepcopy v).
Proof.
  intros h. unfold deepcopy. pose proof (deepcopy_memo_prefix v [] h) as Hp.
  destruct (forallb is_leaf (tensors_of v)); [|by apply prefix_stable_from].
  destruct (deepcopy_memo v [] h) as [[v' m] h']. by apply prefix_stable_from.
Qed.

Lemma on_heap_stable {A} b (m : M heap A) :
  preserves (stable_from b) m → preserves (heap_stable_from b) (on_heap m).
Proof.
  intros Hm w. unfold on_heap, zoom, heap_stable_from. specialize (Hm (w_heap w)).
  by destruct (m (w_heap w)) as [r h'].
Qed.

Lemma replay_stable b g :
  (graph_extent g ≤ b)%nat → preserves (stable_from b) (replay g).
Proof.
  intros Hle h. unfold replay, modify. simpl. split.
  - by rewrite length_imap.
  - intros a Hb Ha. rewrite list_lookup_imap.
    destruct (h !! a) as [old|]; simpl; [|done].
    destruct (a <? graph_extent g)%nat eqn:E; [|done].
    apply Nat.ltb_lt in E. lia.
Qed.

Section Frame.
Variable copy_elements :
  tensor → list scalar → tensor → list scalar → res (list scalar).
Abbreviation tree_copy_ := (tree_copy_ copy_elements).
Abbreviation forward := (forward copy_elements).

Lemma copy_into_stable b d s sd h :
  (storage d < b)%nat → stable_from b h (copy_into copy_elements d s sd h).2.
Proof.
  intros Hd. unfold copy_into.
  destruct (copy_elements _ _ _ _) as [data|]; simpl; [|reflexivity].
  split; [by rewrite length_insert|].
  intros j Hb Ha. apply list_lookup_insert_ne. lia.
Qed.

Lemma tensor_copy_stable b d src :
  (storage d < b)%nat → preserves (stable_from b) (tensor_copy_ copy_elements d src).
Proof.
  intros Hd h. unfold tensor_copy_.
  destruct src; try reflexivity; by apply copy_into_stable.
Qed.

Lemma tree_copy_stable b dest :
  ∀ src, Forall (λ a, (a < b)%nat) (addrs dest) →
         preserves (stable_from b) (tree_copy_ dest src).
Proof.
  induction dest as [| | | | | |l IH|l IH|d IH| | |] using pyval_nested_ind;
    intros src Hall;
    try (simpl; destruct src; first [apply preserves_raise | apply preserves_py_assert]; apply _).
  - simpl. apply preserves_bind; [apply _|apply preserves_lift_res; apply _|].
    intros ys. revert ys Hall.
    induction IH as [|x l Hx _ IHl]; intros ys Hall.
    + apply preserves_ret; apply _.
    + destruct ys as [|y ys]; [apply preserves_ret; apply _|].
      unfold addrs in Hall. simpl in Hall.
      rewrite map_app, Forall_app in Hall. destruct Hall as [H1 H2].
      apply preserves_bind; [apply _|by apply Hx|]. intros _. by apply IHl.
  - simpl. apply preserves_bind; [apply _|apply preserves_lift_res; apply _|].
    intros ys. revert ys Hall.
    induction IH as [|x l Hx _ IHl]; intros ys Hall.
    + apply preserves_ret; apply _.
    + destruct ys as [|y ys]; [apply preserves_ret; apply _|].
      unfold addrs in Hall. simpl in Hall.
      rewrite map_app, Forall_app in Hall. destruct Hall as [H1 H2].
      apply preserves_bind; [apply _|by apply Hx|]. intros _. by apply IHl.
  - simpl. revert Hall.
    induction IH as [|[k x] d Hx _ IHd]; intros Hall.
    + apply preserves_ret; apply _.
    + unfold addrs in Hall. simpl in Hall.
      rewrite map_app, Forall_app in Hall. destruct Hall as [H1 H2].
      apply preserves_bind; [apply _|apply preserves_lift_res; apply _|].
      intros y. apply preserves_bind; [apply _|by apply Hx|]. intros _. by apply IHd.
  - simpl. apply tensor_copy_stable. by apply Forall_cons in Hall as [? _].
Qed.

Lemma _forward_stable b g inputs kwarg_inputs :
  graphed_within g b →
  preserves (heap_stable_from b) (_forward copy_elements g inputs kwarg_inputs).
Proof.
  intros [Hall Hext]. rewrite !Forall_app in Hall. destruct Hall as (Hi & Hk & Ho).
  unfold _forward.
  repeat first [ apply on_heap_stable
               | apply tree_copy_stable | apply replay_stable
               | progress preserves_step | done ].
Qed.

Lemma forward_stable b g inputs kwarg_inputs :
  graphed_within g b →
  preserves (heap_stable_from b) (forward g inputs kwarg_inputs).
Proof.
  intros Hg. unfold forward.
  apply preserves_bind; [apply _|by apply _forward_stable|]. intros outputs.
  apply preserves_bind; [apply _|apply on_heap_stable, deepcopy_stable|].
  intros ?. apply preserves_ret; apply _.
Qed.

Lemma replays_stable b g calls w :
  graphed_within g b → heap_stable_from b w (replays copy_elements g calls w).
Proof.
  intros Hg. revert w. induction calls as [|call calls IH]; intros w; simpl.
  - reflexivity.
  - etrans; [apply (forward_stable b g call.1 call.2 Hg w)|apply IH].
Qed.

Lemma forward_Ok g inputs kwarg_inputs w out w1 :
  forward g inputs kwarg_inputs w = (Ok out, w1) →
  ∃ wm, (_forward copy_elements g inputs kwarg_inputs w).2 = wm ∧
        deepcopy (gm_static_outputs g) (w_heap wm) = (Ok out, w_heap w1).
Proof.
  unfold forward. intros H.
  apply bind_Ok in H as (outputs & wm & Hf & H).
  apply bind_Ok in H as (o2 & w2 & Hd & H). inversion H; subst.
  exists wm. split; [by rewrite Hf|].
  assert (outputs = gm_static_outputs g) as ->.
  { unfold _forward in Hf. repeat (apply bind_Ok in Hf as (? & ? & _ & Hf)).
    by inversion Hf. }
  unfold on_heap, zoom in Hd.
  destruct (deepcopy (gm_static_outputs g) (w_heap wm)) as [r h'].
  by inversion Hd.
Qed.

Lemma buffers_stable b (h h' : heap) v :
  stable_from b h h' →
  Forall (λ a, (b ≤ a < length h)%nat) (addrs v) →
  buffers h' v = buffers h v.
Proof.
  intros [_ Hs]. unfold buffers, addrs.
  induction (tensors_of v) as [|t ts IH]; simpl; [done|].
  intros Hall. apply Forall_cons in Hall as [[H1 H2] Hall].
  rewrite IH by done. f_equal. unfold tensor_data. by rewrite Hs.
Qed.

End Frame.

(** C8: what a replay returns is a deep copy of the static outputs: it has
    their structure and metadata, its buffers hold what the static output
    buffers hold when the replay returns, none of its buffers is a static
    buffer, and later replays of the wrapper leave its buffers as they are. *)
Theorem replay_returns_detached_copy copy_elements (g : GraphedModule)
    (inputs : list pyval) (kwarg_inputs : list (string * pyval))
    (w w1 : world) (out : pyval) :
  graphed_within g (length (w_heap w)) →
  forward copy_elements g inputs kwarg_inputs w = (Ok out, w1) →
  erase out = erase (gm_static_outputs g) ∧
  buffers (w_heap w1) out = buffers (w_heap w1) (gm_static_outputs g) ∧
  Forall (λ a, a ∉ addrs (gm_static_inputs g) ++ addrs (gm_static_kwarg_inputs g) ++
                   addrs (gm_static_outputs g)) (addrs out) ∧
  ∀ calls,
    buffers (w_heap (replays copy_elements g calls w1)) out =
    buffers (w_heap w1) out.
Proof.
  intros Hg H. destruct (forward_Ok _ _ _ _ _ _ _ H) as (wm & Hwm & Hd).
  pose proof (_forward_stable copy_elements _ g inputs kwarg_inputs Hg w) as [Hlen _].
  rewrite Hwm in Hlen.
  assert (Forall (λ a, (a < length (w_heap wm))%nat) (addrs (gm_static_outputs g))) as Ho.
  { destruct Hg as [Hall _]. rewrite !Forall_app in Hall. destruct Hall as (_ & _ & Ho).
    eapply Forall_impl; [exact Ho|]. simpl. lia. }
  destruct (deepcopy_spec _ _ _ _ Hd Ho) as (Hp & He & Hb & Hf).
  split_and!.
  - done.
  - rewrite Hb. symmetry. by apply map_tensor_data_prefix.
  - destruct Hg as [Hall _]. rewrite Forall_forall in Hall, Hf |- *.
    intros a Ha Hin. specialize (Hall a Hin). specialize (Hf a Ha). lia.
  - intros calls. apply (buffers_stable (length (w_heap w))).
    + apply (replays_stable copy_elements _ g calls w1 Hg).
    + eapply Forall_impl; [exact Hf|]. simpl. lia.
Qed.

Lemma replay_returns_detached_copy_witness :
  let r := forward copy_same_shape doubling_module [VTensor gpu_f16] [] world0 in
  let later := replays copy_same_shape doubling_module [([VTensor gpu_b], [])] r.2 in
  graphed_within doubling_module (length (w_heap world0)) ∧
  r.1 = Ok (VTensor (Tensor "cuda" (Some 0) dt_float32 [2] 5 true)) ∧
  buffers (w_heap r.2) (VTensor gpu_out) = [[SInt 6; SInt 8]] ∧
  buffers (w_heap later) (VTensor gpu_out) = [[SInt 16; SInt 18]] ∧
  buffers (w_heap later) (VTensor (Tensor "cuda" (Some 0) dt_float32 [2] 5 true)) =
    [[SInt 6; SInt 8]].
Proof.
  intros r later.
  assert (graphed_within doubling_module (length (w_heap world0))) as Hg.
  { split; [|vm_compute; lia]. vm_compute. repeat constructor. }
  assert (forward copy_same_shape doubling_module [VTensor gpu_f16] [] world0 =
            (Ok (VTensor (Tensor "cuda" (Some 0) dt_float32 [2] 5 true)), r.2)) as Hr
    by (vm_compute; reflexivity).
  destruct (replay_returns_detached_copy copy_same_shape doubling_module
              [VTensor gpu_f16] [] world0 r.2 _ Hg Hr) as (_ & _ & _ & Hlater).
  split; [exact Hg|]. split; [vm_compute; reflexivity|].
  split; [vm_compute; reflexivity|]. split; [vm_compute; reflexivity|].
  subst later. rewrite (Hlater [([VTensor gpu_b], [])]). vm_compute. reflexivity.
Defined.

(** * Further properties *)

(** ** When [hash_arg] raises *)

Lemma sorted_from_same_kind {V} K (acc l : list (pykey * V)) :
  Forall (λ e, key_kind e.1 = K) acc → Forall (λ e, key_kind e.1 = K) l →
  ∃ s, sorted_from acc l = Ok s.
Proof.
  intros Hacc Hl. revert acc Hacc.
  induction Hl as [|x l Hx _ IH]; intros acc Hacc; simpl; [eauto|].
  destruct (insort_same_kind K x acc Hx Hacc) as (r & -> & Hp). simpl.
  apply IH. rewrite Hp. by constructor.
Qed.

Lemma one_kind_Forall {V} (x : pykey * V) l :
  one_kind (map fst (x :: l)) = true ↔
  Forall (λ e : pykey * V, key_kind e.1 = key_kind x.1) l.
Proof.
  simpl. rewrite forallb_Forall_true, Forall_fmap.
  apply Forall_proper; [|done]. intros e. simpl. apply bool_decide_eq_true.
Qed.

Lemma sorted_by_key_one_kind {V} (l : list (pykey * V)) :
  if one_kind (map fst l) then ∃ s, sorted_by_key l = Ok s
  else sorted_by_key l = Raise TypeError.
Proof.
  destruct l as [|x l]; [simpl; eauto|].
  destruct (one_kind (map fst (x :: l))) eqn:E.
  - apply one_kind_Forall in E. unfold sorted_by_key. simpl.
    apply (sorted_from_same_kind (key_kind x.1)); [by repeat constructor|done].
  - unfold sorted_by_key. simpl.
    apply (sorted_from_raise (key_kind x.1)); [done|by repeat constructor|].
    intros H. apply one_kind_Forall in H. congruence.
Qed.

Lemma res_map_Ok_elem {A B} (f : A → res B) l ys x :
  res_map f l = Ok ys → x ∈ l → ∃ y, f x = Ok y.
Proof.
  revert ys. induction l as [|a l IH]; simpl; intros ys H Hin.
  - by apply elem_of_nil in Hin.
  - destruct (f a) as [b|] eqn:Ha; simpl in H; [|done].
    destruct (res_map f l) as [ys'|]; simpl in H; [|done].
    apply elem_of_cons in Hin as [->|Hin]; eauto.
Qed.

(** X1: [hash_arg] returns a fingerprint exactly when every dict it visits
    has keys of one kind; otherwise it raises [TypeError], the exception of
    [sorted], and it raises nothing else. *)
Theorem hash_arg_raises_iff_unorderable (h : heap) (v : pyval) :
  match hash_arg h v with
  | Ok _ => orderable v = true
  | Raise e => e = TypeError ∧ orderable v = false
  end.
Proof.
  induction v as [| | | | | |l IH|l IH|d IH| | |] using pyval_nested_ind;
    try done.
  - rewrite hash_arg_tuple. simpl orderable.
    destruct (res_map_cases (hash_arg h) l) as [(ys & Hm & _)|(e & x & -> & Hin & Hx)].
    + rewrite Hm. simpl.
      apply forallb_Forall_true. rewrite Forall_forall in IH |- *. intros x Hin.
      specialize (IH x Hin).
      destruct (res_map_Ok_elem _ _ _ _ Hm Hin) as [y Hy]. by rewrite Hy in IH.
    + simpl. rewrite Forall_forall in IH. specialize (IH x Hin). rewrite Hx in IH.
      destruct IH as [-> Hf]. split; [done|].
      apply not_true_is_false. rewrite forallb_Forall_true, Forall_forall.
      intros H. specialize (H x Hin). congruence.
  - rewrite hash_arg_list. simpl orderable.
    destruct (res_map_cases (hash_arg h) l) as [(ys & Hm & _)|(e & x & -> & Hin & Hx)].
    + rewrite Hm. simpl.
      apply forallb_Forall_true. rewrite Forall_forall in IH |- *. intros x Hin.
      specialize (IH x Hin).
      destruct (res_map_Ok_elem _ _ _ _ Hm Hin) as [y Hy]. by rewrite Hy in IH.
    + simpl. rewrite Forall_forall in IH. specialize (IH x Hin). rewrite Hx in IH.
      destruct IH as [-> Hf]. split; [done|].
      apply not_true_is_false. rewrite forallb_Forall_true, Forall_forall.
      intros H. specialize (H x Hin). congruence.
  - rewrite hash_arg_dict. simpl orderable.
    match goal with |- context [res_map ?f d] =>
      destruct (res_map_cases f d) as [(ps & Hps & Hall)|(e & x & -> & Hin & Hx)] end.
    + rewrite Hps. simpl.
      assert (forallb (λ kv : pykey * pyval, orderable kv.2) d = true) as ->.
      { apply forallb_Forall_true. rewrite Forall_forall in IH |- *. intros x Hin.
        specialize (IH x Hin).
        destruct (res_map_Ok_elem _ _ _ _ Hps Hin) as [y Hy].
        destruct (hash_arg h x.2); [done|]. done. }
      rewrite <- (res_map_keys _ _ _ Hps). simpl.
      pose proof (sorted_by_key_one_kind ps) as Hs.
      destruct (one_kind (map fst ps)); [by destruct Hs as [s ->]|by rewrite Hs].
    + simpl. rewrite Forall_forall in IH. specialize (IH x Hin).
      destruct (hash_arg h x.2) as [|e'] eqn:E; [done|]. simpl in Hx.
      inversion Hx; subst. destruct IH as [-> Hf]. split; [done|].
      apply andb_false_iff. left.
      apply not_true_is_false. rewrite forallb_Forall_true, Forall_forall.
      intros H. specialize (H x Hin). congruence.
  - by destruct (hash_arg_tensor h t) as (f & -> & _).
Qed.

(** ** What the fingerprint depends on *)

Lemma res_map_ext_in {A B} (f g : A → res B) l :
  (∀ x, x ∈ l → f x = g x) → res_map f l = res_map g l.
Proof. intros H. apply res_map_ext, Forall_forall, H. Qed.

(** X2: the fingerprint reads the store only through the CPU tensors of the
    value: two stores that agree on their buffers give the same result.  The
    elements of CUDA buffers never reach the key. *)
Theorem hash_arg_reads_cpu_buffers_only (h1 h2 : heap) (v : pyval) :
  Forall (λ t, is_cpu t = true → tensor_data h1 t = tensor_data h2 t)
         (tensors_of v) →
  hash_arg h1 v = hash_arg h2 v.
Proof.
  induction v as [| | | | | |l IH|l IH|d IH| | |] using pyval_nested_ind;
    intros Hall; try done.
  - rewrite !hash_arg_tuple. simpl in Hall.
    rewrite (res_map_ext_in (hash_arg h1) (hash_arg h2)); [done|].
    intros x Hin. rewrite Forall_forall in IH. apply IH; [done|].
    rewrite Forall_forall in Hall |- *. intros t Ht. apply Hall.
    apply list_elem_of_In, in_flat_map. exists x.
    split; by apply list_elem_of_In.
  - rewrite !hash_arg_list. simpl in Hall.
    rewrite (res_map_ext_in (hash_arg h1) (hash_arg h2)); [done|].
    intros x Hin. rewrite Forall_forall in IH. apply IH; [done|].
    rewrite Forall_forall in Hall |- *. intros t Ht. apply Hall.
    apply list_elem_of_In, in_flat_map. exists x.
    split; by apply list_elem_of_In.
  - rewrite !hash_arg_dict. simpl in Hall.
    match goal with |- context [res_map ?F d] =>
      rewrite (res_map_ext_in F
                 (λ kv : pykey * pyval, let? fp := hash_arg h2 kv.2 in Ok (kv.1, fp))) end;
      [done|].
    intros x Hin. rewrite Forall_forall in IH. rewrite IH; [done|done|].
    rewrite Forall_forall in Hall |- *. intros t Ht. apply Hall.
    apply list_elem_of_In, in_flat_map. exists x.
    split; by apply list_elem_of_In.
  - apply Forall_cons in Hall as [Ht _]. simpl. unfold numel, item.
    unfold is_cpu in Ht. destruct (String.eqb (device_type t) "cpu"); [|done].
    by rewrite (Ht eq_refl).
Qed.

Lemma hash_arg_reads_cpu_buffers_only_witness :
  Forall (λ t, is_cpu t = true →
               tensor_data heap0 t = tensor_data [[SInt 0]; []; [SInt 7]] t)
         (tensors_of (VTuple [VTensor gpu_f32; VDict [(KStr "s", VTensor cpu_one)]])) ∧
  hash_arg heap0 (VTuple [VTensor gpu_f32; VDict [(KStr "s", VTensor cpu_one)]]) =
  hash_arg [[SInt 0]; []; [SInt 7]]
    (VTuple [VTensor gpu_f32; VDict [(KStr "s", VTensor cpu_one)]]).
Proof.
  assert (Forall (λ t, is_cpu t = true →
               tensor_data heap0 t = tensor_data [[SInt 0]; []; [SInt 7]] t)
         (tensors_of (VTuple [VTensor gpu_f32; VDict [(KStr "s", VTensor cpu_one)]])))
    as H.
  { simpl. constructor; [intros E; vm_compute in E; discriminate E|].
    constructor; [intros _; reflexivity|constructor]. }
  split; [exact H|]. exact (hash_arg_reads_cpu_buffers_only _ _ _ H).
Defined.

Lemma py_eq_index (a b : option Z) :
  py_eq (index_val a) (index_val b) = true → a = b.
Proof.
  destruct a as [x|], b as [y|]; simpl; try done.
  intros H. apply num_of_Z_inj in H. by subst.
Qed.

(** X3: for a tensor hashed on its own, the fingerprint determines the device
    type, device index, dtype and shape: two tensors whose fingerprints are
    equal as Python values agree on all four. *)
Theorem tensor_fingerprint_determines_metadata (h1 h2 : heap) (t1 t2 : tensor)
    (f1 f2 : pyval) :
  hash_arg h1 (VTensor t1) = Ok f1 → hash_arg h2 (VTensor t2) = Ok f2 →
  py_eq f1 f2 = true →
  device_type t1 = device_type t2 ∧ device_index t1 = device_index t2 ∧
  dtype t1 = dtype t2 ∧ shape t1 = shape t2.
Proof.
  destruct (hash_arg_tensor h1 t1) as (x1 & -> & _).
  destruct (hash_arg_tensor h2 t2) as (x2 & -> & _).
  intros [= <-] [= <-]. rewrite !py_eq_tuple_cons, !andb_true_iff.
  intros (Hty & Hi & Hd & Hs & _). split_and!.
  - by apply String.eqb_eq.
  - by apply py_eq_index.
  - by apply dtype_eqb_eq.
  - by apply py_eq_shape.
Qed.

Lemma tensor_fingerprint_determines_metadata_witness :
  hash_arg heap0 (VTensor gpu_f32) =
    Ok (VTuple [VStr "cuda"; VInt 0; VDtype dt_float32; VTuple [VInt 2]; VNone]) ∧
  hash_arg [] (VTensor gpu_b) =
    Ok (VTuple [VStr "cuda"; VInt 0; VDtype dt_float32; VTuple [VInt 2]; VNone]) ∧
  device_type gpu_f32 = device_type gpu_b ∧ device_index gpu_f32 = device_index gpu_b ∧
  dtype gpu_f32 = dtype gpu_b ∧ shape gpu_f32 = shape gpu_b.
Proof.
  split; [reflexivity|]. split; [reflexivity|].
  exact (tensor_fingerprint_determines_metadata heap0 [] gpu_f32 gpu_b _ _
           eq_refl eq_refl eq_refl).
Defined.

Lemma py_eq_tuple_Forall2 l1 l2 :
  py_eq (VTuple l1) (VTuple l2) = true ↔ Forall2 (λ x y, py_eq x y = true) l1 l2.
Proof.
  revert l2. induction l1 as [|x l1 IH]; intros [|y l2].
  - split; [constructor|done].
  - split; [done|inversion 1].
  - split; [done|inversion 1].
  - rewrite py_eq_tuple_cons, andb_true_iff, IH. split.
    + intros [? ?]. by constructor.
    + inversion 1; subst. done.
Qed.

Lemma res_map_Forall2_Ok {A B} (f : A → res B) l ys :
  res_map f l = Ok ys → Forall2 (λ x y, f x = Ok y) l ys.
Proof.
  intros H. destruct (res_map_cases f l) as [(ys' & H' & Hall)|(e & x & H' & _)];
    congruence.
Qed.

(** X4: the fingerprint of a sequence is positional: when the fingerprints
    of two sequences (lists or tuples) are equal, the sequences have the same
    length and the fingerprints of their elements are equal position by
    position. *)
Theorem sequence_fingerprint_is_positional (h1 h2 : heap) (a b : bool)
    (l1 l2 : list pyval) (f1 f2 : pyval) :
  hash_arg h1 (py_seq a l1) = Ok f1 → hash_arg h2 (py_seq b l2) = Ok f2 →
  py_eq f1 f2 = true →
  Forall2 (λ x y, ∃ fx fy, hash_arg h1 x = Ok fx ∧ hash_arg h2 y = Ok fy ∧
                           py_eq fx fy = true) l1 l2.
Proof.
  assert (∀ h c l f, hash_arg h (py_seq c l) = Ok f →
            ∃ fs, f = VTuple fs ∧ Forall2 (λ x y, hash_arg h x = Ok y) l fs) as Hseq.
  { intros h c l f H.
    assert (hash_arg h (py_seq c l) = let? fs := res_map (hash_arg h) l in Ok (VTuple fs))
      as E by (by destruct c).
    rewrite E in H. destruct (res_map (hash_arg h) l) as [fs|] eqn:Hm; [|done].
    inversion H. eauto using res_map_Forall2_Ok. }
  intros H1 H2 Heq.
  destruct (Hseq _ _ _ _ H1) as (fs1 & -> & F1).
  destruct (Hseq _ _ _ _ H2) as (fs2 & -> & F2).
  apply py_eq_tuple_Forall2 in Heq. clear H1 H2 Hseq.
  revert l2 fs2 F2 Heq. induction F1 as [|x fx l1 fs1 Hx _ IH]; intros l2 fs2 F2 Heq.
  - inversion Heq; subst. inversion F2; subst. constructor.
  - inversion Heq as [|? fy ? fs2' Hxy Hrest]; subst.
    inversion F2 as [|y ? l2' ? Hy F2']; subst.
    constructor; [by exists fx, fy|]. by eapply IH.
Qed.

Lemma sequence_fingerprint_is_positional_witness :
  py_eq (VTuple [VInt 1; VTuple [VStr "cuda"; VInt 0; VDtype dt_float32;
                                 VTuple [VInt 2]; VNone]])
        (VTuple [VBool true; VTuple [VStr "cuda"; VInt 0; VDtype dt_float32;
                                     VTuple [VInt 2]; VNone]]) = true ∧
  Forall2 (λ x y, ∃ fx fy, hash_arg heap0 x = Ok fx ∧ hash_arg heap0 y = Ok fy ∧
                           py_eq fx fy = true)
    [VInt 1; VTensor gpu_f32] [VBool true; VTensor gpu_b].
Proof.
  split; [reflexivity|].
  exact (sequence_fingerprint_is_positional heap0 heap0 true false
           [VInt 1; VTensor gpu_f32] [VBool true; VTensor gpu_b] _ _
           eq_refl eq_refl eq_refl).
Defined.

Lemma hash_fingerprint_index i : hash_fingerprint (index_val i) = index_val i.
Proof. by destruct i. Qed.

Lemma hash_fingerprint_shape (s : list Z) :
  map hash_fingerprint (map VInt s) = map VInt s.
Proof. induction s as [|z s IH]; simpl; [done|]. by rewrite IH. Qed.

Lemma py_eq_key (k1 k2 : pykey) :
  py_eq (key_val k1) (key_val k2) = true → key_eqb k1 k2 = true.
Proof.
  destruct k1 as [b1|z1|s1|bs1|x1], k2 as [b2|z2|s2|bs2|x2];
    simpl; try done; intros H.
  - apply num_of_Z_inj in H. rewrite H. by apply bool_decide_eq_true.
  - apply num_of_Z_inj in H. rewrite H. by apply bool_decide_eq_true.
  - apply num_of_Z_inj in H. rewrite H. by apply bool_decide_eq_true.
  - apply num_of_Z_inj in H. rewrite H. by apply bool_decide_eq_true.
  - apply String.eqb_eq in H. subst. by apply bool_decide_eq_true.
  - unfold bytes_eqb in H. apply bool_decide_eq_true in H.
    apply bool_decide_eq_true.
    unfold bytes_codes. rewrite <- !(map_map Byte.to_N Z.of_N). by rewrite H.
Qed.

Lemma hash_fingerprint_key k : hash_fingerprint (key_val k) = key_val k.
Proof. by destruct k. Qed.

(** Equality of keys is an equivalence on the keys that equal something. *)
Lemma num_of_Z_eqb z : num_eqb (num_of_Z z) (num_of_Z z) = true.
Proof.
  destruct z as [|p|p]; simpl; [done| |]; unfold num_fin;
    destruct (strip_twos p 0) as [m e]; simpl;
    by rewrite Pos.eqb_refl, Z.eqb_refl.
Qed.

Lemma key_eqb_num (a b : pykey) :
  key_kind a = KNum → key_kind b = KNum →
  key_eqb a b = match key_num a, key_num b with
                | Some x, Some y => num_eqb x y
                | _, _ => false
                end.
Proof.
  assert (∀ x y, bool_decide ([x] = [y]) = num_eqb (num_of_Z x) (num_of_Z y)) as E.
  { intros x y. destruct (num_eqb (num_of_Z x) (num_of_Z y)) eqn:E.
    - apply num_of_Z_inj in E. subst. by apply bool_decide_eq_true.
    - apply bool_decide_eq_false. intros [= ->].
      by rewrite num_of_Z_eqb in E. }
  destruct a, b; try done; intros _ _; apply E.
Qed.

Lemma key_eqb_kind (a b : pykey) : key_eqb a b = true → key_kind a = key_kind b.
Proof. by destruct a, b. Qed.

Lemma key_eqb_sym (a b : pykey) : key_eqb a b = key_eqb b a.
Proof.
  destruct (key_kind a) eqn:Ka, (key_kind b) eqn:Kb;
    try (by destruct a, b).
  - rewrite !key_eqb_num by done.
    destruct (key_num a), (key_num b); try done. apply num_eqb_sym.
  - destruct a, b; try done. simpl. apply bool_decide_ext. split; congruence.
  - destruct a, b; try done. simpl. apply bool_decide_ext. split; congruence.
Qed.

Lemma key_eqb_trans (a b c : pykey) :
  key_eqb a b = true → key_eqb b c = true → key_eqb a c = true.
Proof.
  intros H1 H2.
  pose proof (key_eqb_kind _ _ H1) as K1. pose proof (key_eqb_kind _ _ H2) as K2.
  destruct (key_kind b) eqn:Kb.
  - rewrite key_eqb_num in H1, H2 |- * by congruence.
    destruct (key_num a), (key_num b), (key_num c); try done.
    apply num_eqb_eq in H1. by subst.
  - destruct a, b, c; try done. simpl in *.
    rewrite bool_decide_eq_true in H1, H2 |- *. congruence.
  - destruct a, b, c; try done. simpl in *.
    rewrite bool_decide_eq_true in H1, H2 |- *. congruence.
Qed.

Lemma dict_get_elem {V} (d : list (pykey * V)) k v :
  dict_get d k = Some v → ∃ k', (k', v) ∈ d ∧ key_eqb k' k = true.
Proof.
  induction d as [|[k0 v0] d IH]; simpl; [done|].
  destruct (key_eqb k0 k) eqn:E.
  - intros [= ->]. exists k0. split; [by left|done].
  - intros H. destruct (IH H) as (k' & Hin & Hk). exists k'. split; [by right|done].
Qed.

Lemma dict_get_wf {V} (d : list (pykey * V)) k k' v :
  dict_wf d = true → (k', v) ∈ d → key_eqb k' k = true → dict_get d k = Some v.
Proof.
  induction d as [|[k0 v0] d IH]; simpl; intros Hwf Hin Hk.
  - by apply elem_of_nil in Hin.
  - apply andb_true_iff in Hwf as [Hfresh Hwf].
    apply elem_of_cons in Hin as [[= -> ->]|Hin]; [by rewrite Hk|].
    destruct (key_eqb k0 k) eqn:E; [|by apply IH].
    exfalso. rewrite forallb_forall in Hfresh.
    specialize (Hfresh (k', v) (proj1 (list_elem_of_In _ _) Hin)).
    apply negb_true_iff in Hfresh. simpl in Hfresh.
    rewrite (key_eqb_sym k' k) in Hk.
    by rewrite (key_eqb_trans _ _ _ E Hk) in Hfresh.
Qed.

(** The entries of the fingerprint of a dict are those of the dict. *)
Lemma hash_arg_dict_entries h d f :
  hash_arg h (VDict d) = Ok f →
  ∃ s, f = VTuple (map (λ kf, VTuple [key_val kf.1; hash_fingerprint kf.2]) s) ∧
       (∀ k v, (k, v) ∈ d → ∃ fp, hash_arg h v = Ok fp ∧ (k, fp) ∈ s) ∧
       (∀ k fp, (k, fp) ∈ s → ∃ v, hash_arg h v = Ok fp ∧ (k, v) ∈ d).
Proof.
  rewrite hash_arg_dict.
  set (F := λ kv : pykey * pyval, let? f := hash_arg h kv.2 in Ok (kv.1, f)).
  destruct (res_map_cases F d) as [(ps & -> & Hps)|(e & x & -> & _)]; [|done].
  simpl. destruct (sorted_by_key ps) as [s|] eqn:Hs; simpl; [|done].
  intros [= <-]. exists s. apply sorted_by_key_Permutation in Hs.
  split_and!.
  - f_equal. apply map_ext. intros [k fp]. simpl. by rewrite hash_fingerprint_key.
  - intros k v Hin. apply list_elem_of_lookup in Hin as [i Hi].
    destruct (Forall2_lookup_l _ _ _ _ _ Hps Hi) as ([k' fp] & Hi' & HF).
    unfold F in HF. simpl in HF.
    destruct (hash_arg h v) as [fp0|]; simpl in HF; [|done].
    injection HF as <- <-. exists fp0. split; [done|].
    rewrite Hs. by eapply list_elem_of_lookup_2.
  - intros k fp Hin. rewrite Hs in Hin. apply list_elem_of_lookup in Hin as [i Hi].
    destruct (Forall2_lookup_r _ _ _ _ _ Hps Hi) as ([k' v] & Hi' & HF).
    unfold F in HF. simpl in HF.
    destruct (hash_arg h v) as [fp0|] eqn:Ev; simpl in HF; [|done].
    injection HF as -> ->. exists v. split; [done|].
    by eapply list_elem_of_lookup_2.
Qed.

(** X5: two dicts whose fingerprints are equal have the same keys, and the
    tensors they hold under one key agree on device type, device index and
    shape.  So for the entries of a dict, and with them for every keyword
    argument, the fingerprint still determines the key, the device and the
    shape of a tensor; of its metadata only the dtype is gone. *)
Theorem dict_fingerprint_keeps_shape_and_device (h1 h2 : heap)
    (d1 d2 : list (pykey * pyval)) (f1 f2 : pyval) :
  hash_arg h1 (VDict d1) = Ok f1 → hash_arg h2 (VDict d2) = Ok f2 →
  py_eq f1 f2 = true → dict_wf d2 = true →
  ∀ k v1, dict_get d1 k = Some v1 →
    ∃ v2, dict_get d2 k = Some v2 ∧
          ∀ t1 t2, v1 = VTensor t1 → v2 = VTensor t2 →
                   device_type t1 = device_type t2 ∧
                   device_index t1 = device_index t2 ∧ shape t1 = shape t2.
Proof.
  intros H1 H2 Heq Hwf k v1 Hget.
  destruct (hash_arg_dict_entries _ _ _ H1) as (s1 & -> & Hin1 & _).
  destruct (hash_arg_dict_entries _ _ _ H2) as (s2 & -> & _ & Hin2).
  apply py_eq_tuple_Forall2 in Heq.
  apply dict_get_elem in Hget as (k1 & Hk1 & Hkk).
  destruct (Hin1 _ _ Hk1) as (fp1 & Hfp1 & Hs1).
  apply (list_elem_of_fmap_2 (λ kf : pykey * pyval,
           VTuple [key_val kf.1; hash_fingerprint kf.2])) in Hs1.
  apply list_elem_of_lookup in Hs1 as [i Hi].
  destruct (Forall2_lookup_l _ _ _ _ _ Heq Hi) as (y & Hy & Hxy).
  apply list_lookup_fmap_Some in Hy as ([k2 fp2] & -> & Hi2).
  cbn [fst snd] in Hxy. rewrite !py_eq_tuple_cons, !andb_true_iff in Hxy.
  destruct Hxy as (Hkey & Hfp & _).
  apply py_eq_key in Hkey.
  destruct (Hin2 k2 fp2) as (v2 & Hfp2 & Hd2); [by eapply list_elem_of_lookup_2|].
  exists v2. split.
  { apply (dict_get_wf d2 k k2); [done|done|].
    eapply key_eqb_trans; [|exact Hkk]. by rewrite key_eqb_sym. }
  intros t1 t2 -> ->.
  destruct (hash_arg_tensor h1 t1) as (x1 & E1 & _).
  destruct (hash_arg_tensor h2 t2) as (x2 & E2 & _).
  rewrite E1 in Hfp1. rewrite E2 in Hfp2.
  injection Hfp1 as <-. injection Hfp2 as <-.
  cbn [hash_fingerprint map] in Hfp.
  rewrite !hash_fingerprint_index, !hash_fingerprint_shape in Hfp.
  rewrite !py_eq_tuple_cons, !andb_true_iff in Hfp.
  destruct Hfp as (Hty & Hi' & _ & Hs & _). split_and!.
  - by apply String.eqb_eq.
  - by apply py_eq_index.
  - by apply py_eq_shape.
Qed.

Lemma dict_fingerprint_keeps_shape_and_device_witness :
  hash_arg heap0 (VDict [(KStr "a", VTensor gpu_f32); (KStr "b", VTensor cpu_one)]) =
    Ok (VTuple
          [VTuple [VStr "a"; VTuple [VStr "cuda"; VInt 0; VNone; VTuple [VInt 2]; VNone]];
           VTuple [VStr "b"; VTuple [VStr "cpu"; VNone; VNone; VTuple []; VInt 7]]]) ∧
  ∃ v2,
    dict_get [(KStr "b", VTensor cpu_one); (KStr "a", VTensor gpu_f16)] (KStr "a")
      = Some v2 ∧
    ∀ t1 t2, VTensor gpu_f32 = VTensor t1 → v2 = VTensor t2 →
             device_type t1 = device_type t2 ∧
             device_index t1 = device_index t2 ∧ shape t1 = shape t2.
Proof.
  split; [reflexivity|].
  exact (dict_fingerprint_keeps_shape_and_device heap0 heap0
           [(KStr "a", VTensor gpu_f32); (KStr "b", VTensor cpu_one)]
           [(KStr "b", VTensor cpu_one); (KStr "a", VTensor gpu_f16)]
           _ _ eq_refl eq_refl eq_refl eq_refl
           (KStr "a") (VTensor gpu_f32) eq_refl).
Defined.

(** X6: a cache key is hashable: it is built from [None], scalars, dtypes
    and tuples and holds no list, no dict and no tensor, whatever the
    arguments are. *)
Theorem call_key_is_hashable (h : heap) (args : list pyval)
    (kwargs : list (string * pyval)) (k : pyval) :
  call_key h args kwargs = Ok k →
  is_fingerprint k = true ∧ hash_arg h k = Ok (hash_fingerprint k).
Proof.
  intros H. apply call_key_is_fingerprint in H.
  split; [done|]. by apply hash_arg_on_fingerprint.
Qed.

Lemma call_key_is_hashable_witness :
  call_key heap0 [VList [VTensor cpu_one]] [("x"%string, VDict [(KInt 2, VNone)])] =
    Ok (VTuple [VTuple [VTuple [VTuple [VStr "cpu"; VNone; VDtype dt_int64;
                                         VTuple []; VInt 7]]];
                VTuple [VTuple [VStr "x"; VTuple [VTuple [VInt 2; VNone]]]]]) ∧
  is_fingerprint
    (VTuple [VTuple [VTuple [VTuple [VStr "cpu"; VNone; VDtype dt_int64;
                                      VTuple []; VInt 7]]];
             VTuple [VTuple [VStr "x"; VTuple [VTuple [VInt 2; VNone]]]]]) = true.
Proof.
  split; [reflexivity|].
  exact (proj1 (call_key_is_hashable heap0 [VList [VTensor cpu_one]]
                  [("x"%string, VDict [(KInt 2, VNone)])] _ eq_refl)).
Defined.

(** ** The device resolver *)

Lemma head_app {A} (l1 l2 : list A) :
  head (l1 ++ l2) = match head l1 with Some x => Some x | None => head l2 end.
Proof. by destruct l1. Qed.

(** X7: the device resolver returns the device index of the first CUDA
    tensor in depth-first order through sequences and dict values, and
    [None] when there is none; tensors on other devices are skipped. *)
Theorem get_cuda_device_is_first_cuda_index (x : pyval) :
  get_cuda_device_from_tensors x = head (omap cuda_index (tensors_of x)).
Proof.
  induction x as [| | | | | |l IH|l IH|d IH| | |] using pyval_nested_ind;
    try done.
  - simpl. induction IH as [|y l Hy _ IHl]; [done|].
    simpl. rewrite omap_app, head_app, <- Hy, <- IHl.
    by destruct (get_cuda_device_from_tensors y).
  - simpl. induction IH as [|y l Hy _ IHl]; [done|].
    simpl. rewrite omap_app, head_app, <- Hy, <- IHl.
    by destruct (get_cuda_device_from_tensors y).
  - simpl. induction IH as [|y l Hy _ IHl]; [done|].
    simpl. rewrite omap_app, head_app, <- Hy, <- IHl.
    by destruct (get_cuda_device_from_tensors y.2).
  - simpl. unfold cuda_index.
    by destruct (String.eqb (device_type t) "cuda"), (device_index t).
Qed.

(** ** The registry and the capture entry point *)

(** X8: a call of [get_per_device_graph_execution_env] that raises leaves the
    process state as it was; it raises [AssertionError] for a [torch.device]
    that is not a CUDA device and [RuntimeError] when the resolved index has
    no environment yet and is not the index of a device. *)
Theorem get_env_failure_leaves_state (d : device_arg) (w w' : world) (e : exn) :
  get_per_device_graph_execution_env d w = (Raise e, w') →
  w' = w ∧
  ((e = AssertionError ∧ resolve_device d w = Raise AssertionError) ∨
   (e = RuntimeError ∧
    ∃ i, resolve_device d w = Ok i ∧ per_device_execution_envs w !! i = None ∧
         0 ≤ i ∧ device_count w ≤ i)).
Proof.
  rewrite get_env_resolves. destruct (resolve_device d w) as [i|e0] eqn:Hr.
  - pose proof (registered_env_cases i w) as Hc.
    destruct (per_device_execution_envs w !! i) as [env|] eqn:Hi.
    + rewrite Hc. done.
    + destruct ((i <? 0) || (i <? device_count w)) eqn:Hv; simpl in Hc; rewrite Hc;
        [done|].
      intros [= <- <-]. split; [done|]. right. split; [done|]. exists i.
      apply orb_false_iff in Hv as [H1 H2].
      apply Z.ltb_ge in H1, H2. done.
  - intros [= <- <-]. split; [done|]. left.
    destruct d as [| |type index]; simpl in Hr; try done.
    destruct (String.eqb type "cuda"); [done|]. by inversion Hr.
Qed.

Lemma get_env_failure_leaves_state_witness :
  get_per_device_graph_execution_env (DevTorch "cpu" None) world0 =
    (Raise AssertionError, world0) ∧
  get_per_device_graph_execution_env (DevIndex 3) world0 =
    (Raise RuntimeError, world0).
Proof.
  destruct (get_per_device_graph_execution_env (DevTorch "cpu" None) world0)
    as [[env|e] w'] eqn:E1; [vm_compute in E1; discriminate E1|].
  destruct (get_per_device_graph_execution_env (DevIndex 3) world0)
    as [[env|e2] w2] eqn:E2; [vm_compute in E2; discriminate E2|].
  destruct (get_env_failure_leaves_state _ _ _ _ E1) as [-> [[-> _]|[_ (i & Hr & _)]]];
    [|vm_compute in Hr; discriminate Hr].
  destruct (get_env_failure_leaves_state _ _ _ _ E2) as [-> [[_ Hr]|[-> _]]];
    [vm_compute in Hr; discriminate Hr|].
  done.
Defined.

Global Instance registry_wf_kept_refl : Reflexive registry_wf_kept.
Proof. by intros w H. Qed.
Global Instance registry_wf_kept_trans : Transitive registry_wf_kept.
Proof. intros w1 w2 w3 H1 H2 H. by apply H2, H1. Qed.

Lemma registry_wf_same w w' :
  per_device_execution_envs w' = per_device_execution_envs w →
  (next_handle w ≤ next_handle w')%nat → registry_wf_kept w w'.
Proof.
  intros He Hn [H1 H2]. split.
  - intros i e Hi. rewrite He in Hi. destruct (H1 i e Hi) as (? & ? & Hlt).
    split_and!; try done. eapply Forall_impl; [exact Hlt|]. simpl. lia.
  - intros i j e e' Hij Hi Hj. rewrite He in Hi, Hj. by eapply H2.
Qed.

Lemma on_heap_registry_wf {A} (m : M heap A) : preserves registry_wf_kept (on_heap m).
Proof. apply preserves_on_heap. intros w h. by apply registry_wf_same. Qed.

Lemma fresh_handle_registry_wf : preserves registry_wf_kept fresh_handle.
Proof. intros w. apply registry_wf_same; simpl; [done|lia]. Qed.

Lemma cuda_device_guard_registry_wf d : preserves registry_wf_kept (cuda_device_guard d).
Proof.
  intros w. unfold cuda_device_guard.
  destruct ((d <? 0) || (d <? device_count w)); reflexivity.
Qed.

Lemma registered_env_registry_wf i : preserves registry_wf_kept (registered_env i).
Proof.
  intros w. pose proof (registered_env_cases i w) as H.
  destruct (per_device_execution_envs w !! i) as [e|] eqn:Hi.
  - rewrite H. reflexivity.
  - destruct ((i <? 0) || (i <? device_count w)); simpl in H; rewrite H; simpl;
      [|reflexivity].
    intros [H1 H2]. split.
    + intros j e. simpl. rewrite lookup_insert. case_decide as Hij.
      * intros [= <-]. subst j. simpl. split; [done|]. split.
        -- unfold env_handles. simpl.
           rewrite !NoDup_cons, !not_elem_of_cons.
           split_and!; try lia; try apply not_elem_of_nil. constructor.
        -- unfold env_handles. simpl. repeat constructor; lia.
      * intros Hj. destruct (H1 j e Hj) as (? & ? & Hlt). split_and!; try done.
        eapply Forall_impl; [exact Hlt|]. simpl. lia.
    + intros j1 j2 e1 e2 Hne. simpl. rewrite !lookup_insert.
      repeat case_decide; subst; try done.
      * intros [= <-] Hj. destruct (H1 _ _ Hj) as (_ & _ & Hlt).
        intros n Hn1 Hn2. rewrite Forall_forall in Hlt. specialize (Hlt n Hn2).
        unfold env_handles in Hn1. simpl in Hn1.
        rewrite !elem_of_cons, elem_of_nil in Hn1. lia.
      * intros Hj [= <-]. destruct (H1 _ _ Hj) as (_ & _ & Hlt).
        intros n Hn1 Hn2. rewrite Forall_forall in Hlt. specialize (Hlt n Hn1).
        unfold env_handles in Hn2. simpl in Hn2.
        rewrite !elem_of_cons, elem_of_nil in Hn2. lia.
      * by apply H2.
Qed.

Lemma get_env_registry_wf d : preserves registry_wf_kept (get_per_device_graph_execution_env d).
Proof.
  intros w. rewrite get_env_resolves.
  destruct (resolve_device d w); [apply registered_env_registry_wf|reflexivity].
Qed.

Lemma make_graphed_callable_registry_wf c ei ek env :
  preserves registry_wf_kept (make_graphed_callable c ei ek env).
Proof.
  unfold make_graphed_callable, warmup_call, py_call.
  repeat first [ apply on_heap_registry_wf
               | apply fresh_handle_registry_wf | apply cuda_device_guard_registry_wf
               | preserves_step ].
Qed.

Lemma simple_make_registry_wf c ei ek :
  preserves registry_wf_kept (simple_make_graphed_callable c ei ek).
Proof.
  unfold simple_make_graphed_callable.
  apply preserves_bind; [apply _| |intros _].
  - intros w. by apply registry_wf_same.
  - destruct (get_cuda_device_from_tensors _).
    + apply preserves_bind; [apply _|apply get_env_registry_wf|intros env].
      apply make_graphed_callable_registry_wf.
    + apply preserves_raise; apply _.
Qed.

Section RegistryOrder.
Variable copy_elements :
  tensor → list scalar → tensor → list scalar → res (list scalar).

Lemma functionalized_registry_wf g i k :
  preserves registry_wf_kept (functionalized copy_elements g i k).
Proof.
  intros w. pose proof (forward_only_heap copy_elements g i k w) as H.
  unfold functionalized. rewrite H. by apply registry_wf_same.
Qed.

Lemma dynamic_registry_wf args kwargs s :
  registry_wf_kept s.2 (dynamic_graphed_callable copy_elements args kwargs s).2.2.
Proof.
  destruct (call_key (w_heap s.2) args kwargs) as [k|e'] eqn:Hk.
  - destruct (cache_get (cached_callables s.1) k) as [g|] eqn:Hg.
    + rewrite (dynamic_hit _ _ _ _ _ _ Hk Hg), on_world_world.
      apply functionalized_registry_wf.
    + rewrite (dynamic_miss _ _ _ _ _ Hk Hg).
      pose proof (simple_make_registry_wf (dw_callable s.1) (VTuple args)
                    (kwargs_val kwargs) s.2) as H1.
      destruct (simple_make_graphed_callable _ _ _ _) as [[g|e''] w']; simpl in *;
        [|done].
      rewrite on_world_world. simpl. etrans; [exact H1|].
      apply functionalized_registry_wf.
  - rewrite (dynamic_key_raises _ _ _ _ _ Hk). reflexivity.
Qed.

Lemma run_ops_registry_wf ops w :
  registry_wf_kept w (run_ops copy_elements ops w).
Proof.
  revert w. induction ops as [|op ops IH]; intros w; simpl; [reflexivity|].
  etrans; [|apply IH]. destruct op; simpl.
  - apply get_env_registry_wf.
  - apply simple_make_registry_wf.
  - apply make_graphed_callable_registry_wf.
  - apply functionalized_registry_wf.
  - apply (dynamic_registry_wf args kwargs (dw, w)).
  - by apply registry_wf_same.
Qed.

End RegistryOrder.

(** X9: starting from an empty registry, after any operations of the module
    every registered environment sits under its own device index, and the
    environments of two different devices have different memory pools,
    streams and locks. *)
Theorem registry_envs_are_per_device copy_elements (w : world)
    (ops : list module_op) (i j : Z) (e e' : GraphExecutionEnv) :
  per_device_execution_envs w = ∅ →
  per_device_execution_envs (run_ops copy_elements ops w) !! i = Some e →
  per_device_execution_envs (run_ops copy_elements ops w) !! j = Some e' →
  device e = i ∧
  (i ≠ j → mempool e ≠ mempool e' ∧ stream e ≠ stream e' ∧ lock e ≠ lock e').
Proof.
  intros Hempty Hi Hj.
  assert (registry_wf w) as Hw.
  { split; intros *; rewrite Hempty, ?lookup_empty; done. }
  apply (run_ops_registry_wf copy_elements ops) in Hw. destruct Hw as [H1 H2].
  destruct (H1 i e Hi) as (Hd & _ & _). split; [done|].
  intros Hne. specialize (H2 i j e e' Hne Hi Hj).
  unfold env_handles in H2. split_and!; intros Heq.
  - apply (H2 (mempool e)); [by left|rewrite Heq; by left].
  - apply (H2 (stream e)); [right; by left|rewrite Heq; right; by left].
  - apply (H2 (lock e)); [do 2 right; by left|rewrite Heq; do 2 right; by left].
Qed.

Lemma registry_envs_are_per_device_witness :
  let ops := [OpGetEnv (DevIndex 0); OpGetEnv (DevIndex (-1))] in
  per_device_execution_envs (run_ops copy_same_shape ops world0) !! 0 =
    Some (MkGraphExecutionEnv 1 0 2 3) ∧
  per_device_execution_envs (run_ops copy_same_shape ops world0) !! (-1) =
    Some (MkGraphExecutionEnv 4 (-1) 5 6) ∧
  (0 ≠ -1 → (1 ≠ 4 ∧ 2 ≠ 5 ∧ 3 ≠ 6)%nat).
Proof.
  intros ops.
  assert (per_device_execution_envs (run_ops copy_same_shape ops world0) !! 0 =
            Some (MkGraphExecutionEnv 1 0 2 3)) as H0 by (vm_compute; reflexivity).
  assert (per_device_execution_envs (run_ops copy_same_shape ops world0) !! (-1) =
            Some (MkGraphExecutionEnv 4 (-1) 5 6)) as H1 by (vm_compute; reflexivity).
  split; [exact H0|]. split; [exact H1|].
  exact (proj2 (registry_envs_are_per_device copy_same_shape world0 ops 0 (-1) _ _
                  eq_refl H0 H1)).
Defined.

(** X10: when [simple_make_graphed_callable] returns a replay wrapper, some
    CUDA tensor occurs in the example arguments, and the wrapper carries the
    callable and the environment that is registered, after the call, under
    the device index of the first such tensor. *)
Theorem simple_make_uses_first_cuda_device (c : callable)
    (example_inputs example_kwarg_inputs : pyval) (w w' : world)
    (g : GraphedModule) :
  simple_make_graphed_callable c example_inputs example_kwarg_inputs w = (Ok g, w') →
  ∃ d, head (omap cuda_index
               (tensors_of (VTuple [example_inputs; example_kwarg_inputs]))) = Some d ∧
       per_device_execution_envs w' !! d = Some (gm_execution_env g) ∧
       gm_callable g = c.
Proof.
  unfold simple_make_graphed_callable. intros H.
  apply bind_Ok in H as ([] & w0 & Hm & H).
  rewrite <- get_cuda_device_is_first_cuda_index.
  destruct (get_cuda_device_from_tensors _) as [d|]; [|done].
  exists d. split; [done|].
  apply bind_Ok in H as (env & w1 & He & H).
  destruct (get_env_registered _ _ _ _ He) as (i & Hr & Hi & _).
  simpl in Hr. inversion Hr; subst i.
  pose proof (make_graphed_callable_envs_kept c example_inputs example_kwarg_inputs
                env w1 d env Hi) as Hk.
  rewrite H in Hk. simpl in Hk.
  apply make_graphed_callable_fields in H as (_ & Hc & Hg & _).
  by rewrite Hg.
Qed.

Lemma simple_make_uses_first_cuda_device_witness :
  ∃ g w',
    simple_make_graphed_callable module_callable
      (VTuple [VTensor cpu_one; VTensor gpu_f32]) VNone world0 = (Ok g, w') ∧
    per_device_execution_envs w' !! 0 = Some (gm_execution_env g) ∧
    gm_execution_env g = MkGraphExecutionEnv 1 0 2 3.
Proof.
  destruct (simple_make_graphed_callable module_callable
              (VTuple [VTensor cpu_one; VTensor gpu_f32]) VNone world0)
    as [[g|e] w'] eqn:E; [|vm_compute in E; discriminate E].
  exists g, w'. split; [reflexivity|].
  destruct (simple_make_uses_first_cuda_device _ _ _ _ _ _ E) as (d & Hd & Hi & _).
  vm_compute in Hd. inversion Hd; subst d. split; [exact Hi|].
  vm_compute in E. by inversion E.
Defined.

(** ** How the cache grows *)

Global Instance counter_kept_refl : Reflexive counter_kept.
Proof. by intros w. Qed.
Global Instance counter_kept_trans : Transitive counter_kept.
Proof. intros w1 w2 w3. unfold counter_kept. congruence. Qed.

Lemma on_heap_counter_kept {A} (m : M heap A) : preserves counter_kept (on_heap m).
Proof. apply preserves_on_heap. by intros w h. Qed.

Lemma fresh_handle_counter_kept : preserves counter_kept fresh_handle.
Proof. by intros w. Qed.

Lemma cuda_device_guard_counter_kept d : preserves counter_kept (cuda_device_guard d).
Proof.
  intros w. unfold cuda_device_guard.
  destruct ((d <? 0) || (d <? device_count w)); reflexivity.
Qed.

Lemma get_env_counter_kept d : preserves counter_kept (get_per_device_graph_execution_env d).
Proof.
  intros w. rewrite get_env_resolves.
  destruct (resolve_device d w) as [i|]; [|reflexivity].
  pose proof (registered_env_cases i w) as H.
  destruct (per_device_execution_envs w !! i) as [e|].
  - rewrite H. reflexivity.
  - destruct ((i <? 0) || (i <? device_count w)); simpl in H; rewrite H; reflexivity.
Qed.

Lemma make_graphed_callable_counter_kept c ei ek env :
  preserves counter_kept (make_graphed_callable c ei ek env).
Proof.
  unfold make_graphed_callable, warmup_call, py_call.
  repeat first [ apply on_heap_counter_kept
               | apply fresh_handle_counter_kept | apply cuda_device_guard_counter_kept
               | preserves_step ].
Qed.

Lemma simple_make_counts c ei ek w :
  capture_calls (simple_make_graphed_callable c ei ek w).2 = S (capture_calls w).
Proof.
  unfold simple_make_graphed_callable, bind at 1, modify.
  set (w0 := set_capture_calls (S (capture_calls w)) w).
  change (S (capture_calls w)) with (capture_calls w0).
  assert (preserves counter_kept
            (match get_cuda_device_from_tensors (VTuple [ei; ek]) with
             | Some cuda_device =>
                 let* execution_env :=
                   get_per_device_graph_execution_env (DevIndex cuda_device) in
                 make_graphed_callable c ei ek execution_env
             | None => raise AssertionError
             end)) as H.
  { destruct (get_cuda_device_from_tensors _).
    - apply preserves_bind; [apply _|apply get_env_counter_kept|intros env].
      apply make_graphed_callable_counter_kept.
    - apply preserves_raise; apply _. }
  apply (H w0).
Qed.

Lemma cache_set_miss cache k g :
  cache_get cache k = None → cache_set cache k g = cache ++ [(k, g)].
Proof.
  induction cache as [|[e g'] cache IH]; simpl; [done|].
  destruct (py_eq e k); [done|]. intros H. by rewrite IH.
Qed.

Lemma cache_get_None cache k :
  cache_get cache k = None → Forall (λ e, py_eq e k = false) cache.*1.
Proof.
  induction cache as [|[e g'] cache IH]; simpl; [constructor|].
  destruct (py_eq e k) eqn:E; [done|]. intros H. constructor; auto.
Qed.

Section CacheGrowth.
Variable copy_elements :
  tensor → list scalar → tensor → list scalar → res (list scalar).
Abbreviation dynamic_call := (dynamic_graphed_callable copy_elements).

Lemma functionalized_counter_kept g i k :
  preserves counter_kept (functionalized copy_elements g i k).
Proof.
  intros w. pose proof (forward_only_heap copy_elements g i k w) as H.
  unfold functionalized. by rewrite H.
Qed.

Lemma dynamic_call_cases args kwargs s :
  dw_callable (dynamic_call args kwargs s).2.1 = dw_callable s.1 ∧
  ((cached_callables (dynamic_call args kwargs s).2.1 = cached_callables s.1 ∧
    capture_calls (dynamic_call args kwargs s).2.2 = capture_calls s.2) ∨
   (cached_callables (dynamic_call args kwargs s).2.1 = cached_callables s.1 ∧
    capture_calls (dynamic_call args kwargs s).2.2 = S (capture_calls s.2) ∧
    ∃ e, (dynamic_call args kwargs s).1 = Raise e) ∨
   (∃ k g, call_key (w_heap s.2) args kwargs = Ok k ∧
           cache_get (cached_callables s.1) k = None ∧
           cached_callables (dynamic_call args kwargs s).2.1 =
             cached_callables s.1 ++ [(k, g)] ∧
           capture_calls (dynamic_call args kwargs s).2.2 = S (capture_calls s.2))).
Proof.
  destruct (call_key (w_heap s.2) args kwargs) as [k|e'] eqn:Hk.
  - destruct (cache_get (cached_callables s.1) k) as [g|] eqn:Hg.
    + rewrite (dynamic_hit _ _ _ _ _ _ Hk Hg), on_world_world, on_world_wrapper.
      split; [done|]. left. split; [done|]. apply functionalized_counter_kept.
    + rewrite (dynamic_miss _ _ _ _ _ Hk Hg).
      pose proof (simple_make_counts (dw_callable s.1) (VTuple args)
                    (kwargs_val kwargs) s.2) as Hc.
      destruct (simple_make_graphed_callable _ _ _ _) as [[g|e''] w'] eqn:E;
        simpl in *.
      * rewrite on_world_world, on_world_wrapper. simpl. split; [done|].
        right. right. exists k, g. split_and!; try done.
        -- by apply cache_set_miss.
        -- rewrite <- Hc. apply functionalized_counter_kept.
      * split; [done|]. right. left. eauto.
  - rewrite (dynamic_key_raises _ _ _ _ _ Hk). split; [done|]. by left.
Qed.

End CacheGrowth.

(** X11: one invocation of the wrapper leaves the cache as it is or appends
    exactly one entry; it appends only under a key for which the cache had no
    entry, and then [simple_make_graphed_callable] was entered exactly once.
    An invocation that enters the capture path without appending has
    raised. *)
Theorem dynamic_call_appends_at_most_one_entry copy_elements
    (args : list pyval) (kwargs : list (string * pyval))
    (s : dynamic_wrapper * world) :
  dw_callable (dynamic_graphed_callable copy_elements args kwargs s).2.1 =
    dw_callable s.1 ∧
  ((cached_callables (dynamic_graphed_callable copy_elements args kwargs s).2.1 =
      cached_callables s.1 ∧
    capture_calls (dynamic_graphed_callable copy_elements args kwargs s).2.2 =
      capture_calls s.2) ∨
   (cached_callables (dynamic_graphed_callable copy_elements args kwargs s).2.1 =
      cached_callables s.1 ∧
    capture_calls (dynamic_graphed_callable copy_elements args kwargs s).2.2 =
      S (capture_calls s.2) ∧
    ∃ e, (dynamic_graphed_callable copy_elements args kwargs s).1 = Raise e) ∨
   (∃ k g, call_key (w_heap s.2) args kwargs = Ok k ∧
           cache_get (cached_callables s.1) k = None ∧
           cached_callables (dynamic_graphed_callable copy_elements args kwargs s).2.1 =
             cached_callables s.1 ++ [(k, g)] ∧
           capture_calls (dynamic_graphed_callable copy_elements args kwargs s).2.2 =
             S (capture_calls s.2))).
Proof. apply dynamic_call_cases. Qed.

(** X12: the cache of a wrapper made by [make_dynamic_graphed_callable] never
    holds two equal keys, however many invocations follow and whatever
    happens to the process state in between: there is at most one captured
    graph per fingerprint. *)
Theorem cache_has_one_entry_per_fingerprint copy_elements (c : callable)
    (w : world) (s : dynamic_wrapper * world) :
  evolves copy_elements (make_dynamic_graphed_callable c, w) s →
  cache_keys_distinct (cached_callables s.1).
Proof.
  remember (make_dynamic_graphed_callable c, w) as s0 eqn:Hs0.
  induction 1 as [s|s s' args kwargs _ IH|s s' w' _ IH]; subst.
  - intros i j k1 k2 _ Hi. done.
  - specialize (IH eq_refl).
    destruct (dynamic_call_cases copy_elements args kwargs s')
      as (_ & [[-> _]|[[-> _]|(k & g & _ & Hg & -> & _)]]); try done.
    intros i j k1 k2 Hij. rewrite fmap_app. simpl.
    apply cache_get_None in Hg.
    destruct (decide (j < length (cached_callables s'.1).*1)%nat) as [Hj|Hj].
    + rewrite !lookup_app_l by lia. by apply IH.
    + rewrite (lookup_app_r _ _ j) by lia. intros Hi Hk.
      assert (k2 = k) as ->.
      { destruct (j - length (cached_callables s'.1).*1)%nat as [|n]; simpl in Hk;
          [by inversion Hk|done]. }
      destruct (decide (i < length (cached_callables s'.1).*1)%nat) as [Hi'|Hi'].
      * rewrite lookup_app_l in Hi by lia.
        rewrite Forall_forall in Hg. apply Hg. by eapply list_elem_of_lookup_2.
      * rewrite lookup_app_r in Hi by lia.
        apply lookup_lt_Some in Hk, Hi. simpl in *. lia.
  - by apply IH.
Qed.

Lemma cache_has_one_entry_per_fingerprint_witness :
  let s0 := (make_dynamic_graphed_callable module_callable, world0) in
  let s1 := (dynamic_graphed_callable copy_same_shape [VTensor gpu_f32] [] s0).2 in
  let s2 := (dynamic_graphed_callable copy_same_shape [VTensor gpu_f32; VInt 1] [] s1).2 in
  length (cached_callables s2.1) = 2%nat ∧
  cache_keys_distinct (cached_callables s2.1).
Proof.
  intros s0 s1 s2. split; [vm_compute; reflexivity|].
  apply (cache_has_one_entry_per_fingerprint copy_same_shape module_callable world0).
  apply evolves_call, evolves_call, evolves_refl.
Defined.

(** ** What a tree copy writes *)

Global Instance unchanged_outside_refl S : Reflexive (unchanged_outside S).
Proof. by intros h. Qed.
Global Instance unchanged_outside_trans S : Transitive (unchanged_outside S).
Proof.
  intros h1 h2 h3 [L1 H1] [L2 H2]. split; [congruence|].
  intros a Ha. rewrite H2 by done. by apply H1.
Qed.

Lemma unchanged_outside_mono (S S' : list nat) h h' :
  (∀ a, a ∈ S → a ∈ S') → unchanged_outside S h h' → unchanged_outside S' h h'.
Proof. intros Hsub [L H]. split; [done|]. intros a Ha. apply H. auto. Qed.

Lemma addrs_seq_cons x l :
  addrs (VTuple (x :: l)) = addrs x ++ addrs (VTuple l) ∧
  addrs (VList (x :: l)) = addrs x ++ addrs (VList l).
Proof. unfold addrs. simpl. by rewrite map_app. Qed.

Section TreeCopyFrame.
Variable copy_elements :
  tensor → list scalar → tensor → list scalar → res (list scalar).
Abbreviation tree_copy_ := (tree_copy_ copy_elements).

Lemma copy_into_unchanged S d s sd h :
  storage d ∈ S → unchanged_outside S h (copy_into copy_elements d s sd h).2.
Proof.
  intros Hd. unfold copy_into.
  destruct (copy_elements _ _ _ _) as [data|]; simpl; [|reflexivity].
  split; [by rewrite length_insert|].
  intros j Hj. apply list_lookup_insert_ne. intros E. by subst j.
Qed.

Lemma tensor_copy_unchanged S d src :
  storage d ∈ S → preserves (unchanged_outside S) (tensor_copy_ copy_elements d src).
Proof.
  intros Hd h. unfold tensor_copy_.
  destruct src; try reflexivity; by apply copy_into_unchanged.
Qed.

Lemma tree_copy_unchanged S dest :
  ∀ src, (∀ a, a ∈ addrs dest → a ∈ S) →
         preserves (unchanged_outside S) (tree_copy_ dest src).
Proof.
  induction dest as [| | | | | |l IH|l IH|d IH| | |] using pyval_nested_ind;
    intros src Hsub;
    try (simpl; destruct src; first [apply preserves_raise | apply preserves_py_assert]; apply _).
  - simpl. apply preserves_bind; [apply _|apply preserves_lift_res; apply _|].
    intros ys. revert ys Hsub.
    induction IH as [|x l Hx _ IHl]; intros ys Hsub.
    + apply preserves_ret; apply _.
    + destruct ys as [|y ys]; [apply preserves_ret; apply _|].
      rewrite (proj1 (addrs_seq_cons x l)) in Hsub.
      apply preserves_bind; [apply _| |intros _].
      * apply Hx. intros a Ha. apply Hsub, elem_of_app. by left.
      * apply IHl. intros a Ha. apply Hsub, elem_of_app. by right.
  - simpl. apply preserves_bind; [apply _|apply preserves_lift_res; apply _|].
    intros ys. revert ys Hsub.
    induction IH as [|x l Hx _ IHl]; intros ys Hsub.
    + apply preserves_ret; apply _.
    + destruct ys as [|y ys]; [apply preserves_ret; apply _|].
      rewrite (proj2 (addrs_seq_cons x l)) in Hsub.
      apply preserves_bind; [apply _| |intros _].
      * apply Hx. intros a Ha. apply Hsub, elem_of_app. by left.
      * apply IHl. intros a Ha. apply Hsub, elem_of_app. by right.
  - simpl. revert Hsub.
    induction IH as [|[k x] d Hx _ IHd]; intros Hsub.
    + apply preserves_ret; apply _.
    + unfold addrs in Hsub. simpl in Hsub. rewrite map_app in Hsub.
      apply preserves_bind; [apply _|apply preserves_lift_res; apply _|].
      intros y. apply preserves_bind; [apply _| |intros _].
      * apply Hx. intros a Ha. apply Hsub, elem_of_app. by left.
      * apply IHd. intros a Ha. apply Hsub, elem_of_app. by right.
  - simpl. apply tensor_copy_unchanged. apply Hsub. unfold addrs. simpl. by left.
Qed.

End TreeCopyFrame.

(** X13: [tree_copy_] writes into the buffers of the tensors of [dest] and
    nowhere else: whether it returns or raises, the store keeps its extent
    and every other buffer, those of the source included, is as before. *)
Theorem tree_copy_writes_only_destination copy_elements (dest src : pyval)
    (h : heap) :
  unchanged_outside (addrs dest) h (tree_copy_ copy_elements dest src h).2.
Proof. by apply tree_copy_unchanged. Qed.

(** X14: for a dict destination, a source dict that lacks one of the keys of
    the destination makes [tree_copy_] raise; if the first key is the missing
    one the exception is [KeyError] and nothing has been written. *)
Theorem tree_copy_missing_key_raises copy_elements
    (dd sd : list (pykey * pyval)) (k : pykey) (x : pyval) (h : heap) :
  (k, x) ∈ dd → dict_get sd k = None →
  (∃ e, (tree_copy_ copy_elements (VDict dd) (VDict sd) h).1 = Raise e) ∧
  (∀ dd', dd = (k, x) :: dd' →
          tree_copy_ copy_elements (VDict dd) (VDict sd) h = (Raise KeyError, h)).
Proof.
  intros Hin Hk. split.
  - revert h. induction dd as [|[k' x'] dd IH]; intros h.
    + by apply elem_of_nil in Hin.
    + change (tree_copy_ copy_elements (VDict ((k', x') :: dd)) (VDict sd))
        with (let* y := lift_res (py_getitem (VDict sd) k') in
              tree_copy_ copy_elements x' y ;;
              tree_copy_ copy_elements (VDict dd) (VDict sd)).
      unfold bind, lift_res. simpl.
      destruct (dict_get sd k') as [y|] eqn:Hy; [|eauto].
      destruct (tree_copy_ copy_elements x' y h) as [[[]|e] h1]; [|eauto].
      apply elem_of_cons in Hin as [Heq|Hin]; [|by apply IH].
      inversion Heq; subst. congruence.
  - intros dd' ->. simpl. unfold bind, lift_res. simpl. by rewrite Hk.
Qed.

Lemma tree_copy_missing_key_raises_witness :
  tree_copy_ copy_same_shape
    (VDict [(KStr "x", VTensor gpu_f32); (KStr "y", VTensor gpu_out)])
    (VDict [(KStr "x", VTensor gpu_f16)]) heap0 =
  (Raise KeyError,
   [[SInt 3; SInt 4]; [SInt 3; SInt 4]; [SInt 7]; [SInt 5; SInt 6]; [SInt 8; SInt 9]]) ∧
  tree_copy_ copy_same_shape
    (VDict [(KStr "y", VTensor gpu_out); (KStr "x", VTensor gpu_f32)])
    (VDict [(KStr "x", VTensor gpu_f16)]) heap0 = (Raise KeyError, heap0).
Proof.
  split; [reflexivity|].
  apply (proj2 (tree_copy_missing_key_raises copy_same_shape
                  [(KStr "y", VTensor gpu_out); (KStr "x", VTensor gpu_f32)]
                  [(KStr "x", VTensor gpu_f16)] (KStr "y") (VTensor gpu_out) heap0
                  ltac:(by left) eq_refl) _ eq_refl).
Defined.

(** X15: for a dict destination only the source entries under the keys of
    the destination count: two source dicts that agree on these keys are
    copied alike, so further keys of the source are ignored. *)
Theorem tree_copy_ignores_other_source_keys copy_elements
    (dd sd sd' : list (pykey * pyval)) :
  Forall (λ kx, dict_get sd kx.1 = dict_get sd' kx.1) dd →
  tree_copy_ copy_elements (VDict dd) (VDict sd) =
  tree_copy_ copy_elements (VDict dd) (VDict sd').
Proof.
  induction 1 as [|[k x] dd Hk _ IH]; [done|].
  change (tree_copy_ copy_elements (VDict ((k, x) :: dd)) (VDict sd))
    with (let* y := lift_res (py_getitem (VDict sd) k) in
          tree_copy_ copy_elements x y ;;
          tree_copy_ copy_elements (VDict dd) (VDict sd)).
  change (tree_copy_ copy_elements (VDict ((k, x) :: dd)) (VDict sd'))
    with (let* y := lift_res (py_getitem (VDict sd') k) in
          tree_copy_ copy_elements x y ;;
          tree_copy_ copy_elements (VDict dd) (VDict sd')).
  simpl in Hk. simpl py_getitem. by rewrite Hk, IH.
Qed.

Lemma tree_copy_ignores_other_source_keys_witness :
  tree_copy_ copy_same_shape (VDict [(KStr "x", VTensor gpu_f32)])
    (VDict [(KStr "x", VTensor gpu_f16); (KStr "extra", VInt 1)]) heap0 =
  (Ok tt,
   [[SInt 3; SInt 4]; [SInt 3; SInt 4]; [SInt 7]; [SInt 5; SInt 6]; [SInt 8; SInt 9]]).
Proof.
  rewrite (tree_copy_ignores_other_source_keys copy_same_shape
             [(KStr "x", VTensor gpu_f32)]
             [(KStr "x", VTensor gpu_f16); (KStr "extra", VInt 1)]
             [(KStr "x", VTensor gpu_f16)]).
  - reflexivity.
  - repeat constructor.
Defined.

(** ** Flat sequences of tensors *)

Lemma tensor_copy_Ok copy_elements d s h h' :
  tensor_copy_ copy_elements d (VTensor s) h = (Ok tt, h') →
  ∃ data, copy_elements d (tensor_data h d) s (tensor_data h s) = Ok data ∧
          h' = <[storage d := data]> h.
Proof.
  unfold tensor_copy_, copy_into.
  destruct (copy_elements _ _ _ _) as [data|]; [|done].
  intros [= <-]. eauto.
Qed.

Lemma tensor_data_insert_ne h a data t :
  storage t ≠ a → tensor_data (<[a := data]> h) t = tensor_data h t.
Proof. intros Hne. unfold tensor_data. by rewrite list_lookup_insert_ne. Qed.

Lemma tensor_data_unchanged S h h' t :
  unchanged_outside S h h' → storage t ∉ S → tensor_data h' t = tensor_data h t.
Proof. intros [_ H] Ht. unfold tensor_data. by rewrite H. Qed.

Lemma addrs_py_seq_tensors a (ds : list tensor) :
  addrs (py_seq a (map VTensor ds)) = map storage ds.
Proof.
  unfold addrs. f_equal. destruct a; simpl; induction ds; simpl; by f_equal.
Qed.

(** X16: copying a flat sequence of tensors into a flat sequence of static
    buffers.  When the static buffers are distinct, allocated and apart from
    the source buffers, a copy that returns has given each paired static
    buffer the result of [copy_] on the elements the two buffers held before
    the call, and has left every static buffer past the end of the source
    with its old elements. *)
Theorem tree_copy_fills_each_paired_buffer copy_elements (a b : bool)
    (ds ss : list tensor) (h h' : heap) :
  NoDup (map storage ds) →
  Forall (λ d, (storage d < length h)%nat) ds →
  (∀ d s, d ∈ ds → s ∈ ss → storage d ≠ storage s) →
  tree_copy_ copy_elements (py_seq a (map VTensor ds))
                           (py_seq b (map VTensor ss)) h = (Ok tt, h') →
  ∀ i d, ds !! i = Some d →
         match ss !! i with
         | Some s => copy_elements d (tensor_data h d) s (tensor_data h s)
                     = Ok (tensor_data h' d)
         | None => tensor_data h' d = tensor_data h d
         end.
Proof.
  revert ss h. induction ds as [|d0 ds IH]; intros ss h Hnd Hal Hdis Hc i d Hi.
  - done.
  - destruct ss as [|s0 ss].
    + change (map VTensor []) with (@nil pyval) in Hc.
      rewrite tree_copy_seq_nil_r in Hc.
      assert (h' = h) as -> by (destruct a, b; cbv in Hc; congruence).
      by rewrite lookup_nil.
    + simpl map in Hc. rewrite tree_copy_seq_cons in Hc.
      apply bind_Ok in Hc as ([] & h1 & H0 & Hrest).
      change (tree_copy_ copy_elements (VTensor d0) (VTensor s0))
        with (tensor_copy_ copy_elements d0 (VTensor s0)) in H0.
      apply tensor_copy_Ok in H0 as (data & Hdata & ->).
      apply NoDup_cons in Hnd as [Hd0 Hnd].
      apply Forall_cons in Hal as [Hl0 Hal].
      pose proof (tree_copy_unchanged copy_elements (map storage ds)
                    (py_seq a (map VTensor ds)) (py_seq b (map VTensor ss))
                    ltac:(by rewrite addrs_py_seq_tensors)
                    (<[storage d0 := data]> h)) as Hfr.
      rewrite Hrest in Hfr. simpl in Hfr.
      destruct i as [|i]; simpl in Hi |- *.
      * injection Hi as ->.
        rewrite (tensor_data_unchanged _ _ _ _ Hfr Hd0).
        unfold tensor_data at 3. rewrite list_lookup_insert_eq by done. done.
      * assert (d ∈ ds) as Hin by by eapply list_elem_of_lookup_2.
        assert (storage d ≠ storage d0) as Hne.
        { intros E. apply Hd0. rewrite <- E. apply list_elem_of_fmap. eauto. }
        specialize (IH ss (<[storage d0 := data]> h) Hnd).
        ospecialize (IH _ _ Hrest i d Hi).
        { eapply Forall_impl; [exact Hal|]. intros t Ht. simpl.
          by rewrite length_insert. }
        { intros d1 s1 H1 H2. apply Hdis; by right. }
        rewrite (tensor_data_insert_ne _ _ _ d Hne) in IH.
        destruct (ss !! i) as [s|] eqn:Hs; [|done].
        rewrite tensor_data_insert_ne in IH; [done|].
        intros E. eapply (Hdis d0 s); [by left| |done].
        right. by eapply list_elem_of_lookup_2.
Qed.

Lemma tree_copy_fills_each_paired_buffer_witness :
  copy_same_shape gpu_f32 (tensor_data heap0 gpu_f32) gpu_f16
                  (tensor_data heap0 gpu_f16)
  = Ok (tensor_data [[SInt 3; SInt 4]; [SInt 3; SInt 4]; [SInt 7];
                     [SInt 5; SInt 6]; [SInt 8; SInt 9]] gpu_f32) ∧
  tensor_data [[SInt 3; SInt 4]; [SInt 3; SInt 4]; [SInt 7];
               [SInt 5; SInt 6]; [SInt 8; SInt 9]] gpu_out
  = tensor_data heap0 gpu_out.
Proof.
  assert (NoDup (map storage [gpu_f32; gpu_out])) as Hnd.
  { change (NoDup [0; 3]%nat). apply (bool_decide_unpack _). by vm_compute. }
  assert (Forall (λ d, (storage d < length heap0)%nat) [gpu_f32; gpu_out]) as Hal.
  { repeat constructor; vm_compute; lia. }
  assert (∀ d s, d ∈ [gpu_f32; gpu_out] → s ∈ [gpu_f16] →
                 storage d ≠ storage s) as Hdis.
  { intros d s Hd Hs.
    rewrite !elem_of_cons, elem_of_nil in Hd.
    rewrite !elem_of_cons, elem_of_nil in Hs.
    destruct Hs as [->|[]]. destruct Hd as [->|[->|[]]]; vm_compute; lia. }
  split.
  - exact (tree_copy_fills_each_paired_buffer copy_same_shape false true
             [gpu_f32; gpu_out] [gpu_f16] heap0 _ Hnd Hal Hdis eq_refl
             0%nat gpu_f32 eq_refl).
  - exact (tree_copy_fills_each_paired_buffer copy_same_shape false true
             [gpu_f32; gpu_out] [gpu_f16] heap0 _ Hnd Hal Hdis eq_refl
             1%nat gpu_out eq_refl).
Defined.

(** ** A replay whose argument copy fails *)

Lemma on_heap_inv {A} (m : M heap A) w r w' :
  on_heap m w = (r, w') → m (w_heap w) = (r, w_heap w').
Proof.
  unfold on_heap, zoom. destruct (m (w_heap w)) as [r0 h1]. by intros [= -> <-].
Qed.

(** X17: when the copy of the arguments into the static inputs raises,
    [forward] raises that exception and stops there: the graph is not
    replayed and no result is cloned, the store is the one the failed copy
    left, in which at most buffers of the static inputs have been written
    (those copied before the failure keep their new elements) and nothing
    has been allocated, and nothing else of the process state has changed. *)
Theorem failed_argument_copy_stops_forward copy_elements
    (g : GraphedModule) (inputs : list pyval)
    (kwarg_inputs : list (string * pyval)) (w : world) (e : exn) (h' : heap) :
  (tree_copy_ copy_elements (gm_static_inputs g) (VTuple inputs) ;;
   tree_copy_ copy_elements (gm_static_kwarg_inputs g) (kwargs_val kwarg_inputs))%M
    (w_heap w) = (Raise e, h') →
  forward copy_elements g inputs kwarg_inputs w = (Raise e, set_heap h' w) ∧
  unchanged_outside (addrs (gm_static_inputs g) ++ addrs (gm_static_kwarg_inputs g))
                    (w_heap w) h'.
Proof.
  intros H.
  pose proof (tree_copy_unchanged copy_elements _ (gm_static_inputs g)
                (VTuple inputs) (λ _ Hj, Hj) (w_heap w)) as P1.
  unfold forward, _forward, bind, on_heap, zoom in *.
  destruct (tree_copy_ copy_elements (gm_static_inputs g) (VTuple inputs) (w_heap w))
    as [[[]|e1] h1].
  - pose proof (tree_copy_unchanged copy_elements _ (gm_static_kwarg_inputs g)
                  (kwargs_val kwarg_inputs) (λ _ Hj, Hj) h1) as P2.
    simpl in *.
    destruct (tree_copy_ copy_elements (gm_static_kwarg_inputs g)
                (kwargs_val kwarg_inputs) h1) as [[[]|e2] h2]; [done|].
    injection H as -> ->. split; [done|]. simpl in *.
    etrans.
    + eapply unchanged_outside_mono; [|exact P1].
      intros j Hj. apply elem_of_app. by left.
    + eapply unchanged_outside_mono; [|exact P2].
      intros j Hj. apply elem_of_app. by right.
  - injection H as -> ->. split; [done|]. simpl in *.
    eapply unchanged_outside_mono; [|exact P1].
    intros j Hj. apply elem_of_app. by left.
Qed.

Lemma failed_argument_copy_stops_forward_witness :
  let g := MkGraphedModule module_callable (MkGraphExecutionEnv 1 0 2 3)
             doubling_graph (VTuple [VTensor gpu_f32; VTensor gpu_b]) (VDict [])
             (VTensor gpu_out) true in
  let h' := [[SInt 3; SInt 4]; [SInt 3; SInt 4]; [SInt 7]; [SInt 5; SInt 6];
             [SInt 8; SInt 9]] in
  forward copy_same_shape g [VTensor gpu_f16; VNone] [] world0 =
    (Raise TypeError, set_heap h' world0) ∧
  unchanged_outside (addrs (gm_static_inputs g) ++ addrs (gm_static_kwarg_inputs g))
                    (w_heap world0) h'.
Proof.
  intros g h'.
  exact (failed_argument_copy_stops_forward copy_same_shape g
           [VTensor gpu_f16; VNone] [] world0 TypeError h' eq_refl).
Defined.

(** ** What a capture builds *)

Global Instance heap_grows_refl : Reflexive heap_grows.
Proof. intros w. unfold heap_grows. lia. Qed.
Global Instance heap_grows_trans : Transitive heap_grows.
Proof. intros w1 w2 w3. unfold heap_grows. lia. Qed.

Lemma addrs_items_Forall (P : nat → Prop) (l : list pyval) :
  Forall (λ x, Forall P (addrs x)) l ↔ Forall P (addrs (VTuple l)).
Proof.
  unfold addrs. simpl. induction l as [|x l IH]; simpl.
  - split; constructor.
  - rewrite Forall_cons, map_app, Forall_app. by rewrite IH.
Qed.

Lemma py_iter_addrs (P : nat → Prop) v l :
  py_iter v = Ok l → Forall P (addrs v) → Forall (λ x, Forall P (addrs x)) l.
Proof.
  destruct v; simpl; try done; intros [= <-] H.
  - apply Forall_fmap, Forall_true. intros c. constructor.
  - apply Forall_fmap, Forall_true. intros c. constructor.
  - by apply addrs_items_Forall.
  - by apply addrs_items_Forall.
  - apply Forall_fmap, Forall_true. intros [[] ?]; constructor.
Qed.

Lemma py_kwargs_addrs (P : nat → Prop) v k :
  py_kwargs v = Ok k → Forall P (addrs v) →
  Forall (λ sv : string * pyval, Forall P (addrs sv.2)) k.
Proof.
  destruct v as [| | | | | | | |d| | |]; simpl; try done.
  unfold addrs. simpl. revert k.
  induction d as [|[key x] d IH]; simpl; intros k.
  - intros [= <-] _. constructor.
  - destruct key; simpl; try done.
    destruct (res_map _ d) as [r|] eqn:Hr; simpl; [|done].
    intros [= <-]. rewrite map_app, Forall_app. intros [Hx Hd].
    constructor; [done|]. by apply IH.
Qed.

Lemma on_heap_grows {A} (m : M heap A) :
  (∀ h, (length h ≤ length (m h).2)%nat) → preserves heap_grows (on_heap m).
Proof.
  intros Hm w. unfold on_heap, zoom, heap_grows. specialize (Hm (w_heap w)).
  by destruct (m (w_heap w)) as [r h'].
Qed.

Lemma deepcopy_grows v : preserves heap_grows (on_heap (deepcopy v)).
Proof.
  apply on_heap_grows. intros h. unfold deepcopy.
  pose proof (deepcopy_memo_prefix v [] h) as Hp.
  destruct (forallb is_leaf (tensors_of v)); [|done].
  destruct (deepcopy_memo v [] h) as [[v' m] h']. by apply prefix_length.
Qed.

Lemma py_call_grows c a k :
  (∀ a k h, (length h ≤ length (c_run c a k h).2)%nat) →
  preserves heap_grows (py_call c a k).
Proof.
  intros Hc. unfold py_call.
  repeat first [ apply on_heap_grows, Hc | preserves_step ].
Qed.

Lemma warmup_call_grows c ei ek :
  (∀ a k h, (length h ≤ length (c_run c a k h).2)%nat) →
  preserves heap_grows (warmup_call c ei ek).
Proof.
  intros Hc. unfold warmup_call.
  repeat first [ apply deepcopy_grows | apply py_call_grows, Hc | preserves_step ].
Qed.

Lemma preserves_Ok {S A} (R : S → S → Prop) (m : M S A) s a s' :
  preserves R m → m s = (Ok a, s') → R s s'.
Proof. intros Hm H. specialize (Hm s). by rewrite H in Hm. Qed.

Lemma addrs_default_tuple v :
  addrs (match v with VNone => VTuple [] | _ => v end) = addrs v.
Proof. by destruct v. Qed.

Lemma addrs_default_dict v :
  addrs (match v with VNone => VDict [] | _ => v end) = addrs v.
Proof. by destruct v. Qed.

(** X18: what [make_graphed_callable] hands to the replay wrapper.  For a
    callable that frees no buffer and returns allocated tensors, and example
    arguments whose buffers are allocated, a capture that returns has built
    static inputs with the structure of the example arguments ([None] read
    as the empty tuple and the empty dict) in buffers allocated during the
    call, none of which existed before it; and all static buffers and the
    extent of the graph lie within the store the capture leaves, which is
    what a replay relies on. *)
Theorem capture_builds_replayable_wrapper (c : callable)
    (example_inputs example_kwarg_inputs : pyval)
    (execution_env : GraphExecutionEnv) (w w' : world) (g : GraphedModule) :
  keeps_allocation c →
  Forall (λ j, (j < length (w_heap w))%nat)
         (addrs example_inputs ++ addrs example_kwarg_inputs) →
  make_graphed_callable c example_inputs example_kwarg_inputs execution_env w =
    (Ok g, w') →
  graphed_within g (length (w_heap w')) ∧
  erase (gm_static_inputs g) =
    erase (match example_inputs with VNone => VTuple [] | _ => example_inputs end) ∧
  erase (gm_static_kwarg_inputs g) =
    erase (match example_kwarg_inputs with
           | VNone => VDict [] | _ => example_kwarg_inputs end) ∧
  Forall (λ j, (length (w_heap w) ≤ j)%nat)
         (addrs (gm_static_inputs g) ++ addrs (gm_static_kwarg_inputs g)).
Proof.
  intros [Hgrow Hout] Hal H. apply Forall_app in Hal as [Hai Hak].
  unfold make_graphed_callable in H.
  set (ei := match example_inputs with VNone => VTuple [] | _ => example_inputs end) in *.
  set (ek := match example_kwarg_inputs with
             | VNone => VDict [] | _ => example_kwarg_inputs end) in *.
  apply bind_Ok in H as ([] & w1 & H1 & H).
  apply bind_Ok in H as (hd & w2 & H2 & H).
  apply bind_Ok in H as ([] & w3 & H3 & H).
  apply bind_Ok in H as ([] & w4 & H4 & H).
  apply bind_Ok in H as ([] & w5 & H5 & H).
  apply bind_Ok in H as (si & w6 & H6 & H).
  apply bind_Ok in H as (sk & w7 & H7 & H).
  apply bind_Ok in H as ([] & w8 & H8 & H).
  apply bind_Ok in H as (so & w9 & H9 & H).
  apply bind_Ok in H as (ext & w10 & H10 & H).
  assert (w1 = w) as ->.
  { unfold cuda_device_guard in H1. by destruct (_ || _); injection H1. }
  assert (w_heap w2 = w_heap w) as E2.
  { unfold fresh_handle in H2. by injection H2 as _ <-. }
  pose proof (preserves_Ok _ _ _ _ _ (warmup_call_grows c ei ek Hgrow) H3) as G3.
  pose proof (preserves_Ok _ _ _ _ _ (warmup_call_grows c ei ek Hgrow) H4) as G4.
  pose proof (preserves_Ok _ _ _ _ _ (warmup_call_grows c ei ek Hgrow) H5) as G5.
  unfold heap_grows in G3, G4, G5. rewrite E2 in G3.
  assert (w8 = w7) as ->.
  { unfold cuda_device_guard in H8. by destruct (_ || _); injection H8. }
  apply on_heap_inv in H6. apply on_heap_inv in H7.
  apply deepcopy_spec in H6 as (P6 & Ei & _ & F6); cycle 1.
  { unfold ei. rewrite addrs_default_tuple.
    eapply Forall_impl; [exact Hai|]. simpl. lia. }
  apply prefix_length in P6.
  apply deepcopy_spec in H7 as (P7 & Ek & _ & F7); cycle 1.
  { unfold ek. rewrite addrs_default_dict.
    eapply Forall_impl; [exact Hak|]. simpl. lia. }
  apply prefix_length in P7.
  pose proof (preserves_Ok _ _ _ _ _ (py_call_grows c si sk Hgrow) H9) as G9.
  unfold heap_grows in G9.
  unfold py_call in H9.
  apply bind_Ok in H9 as (a & ? & Ha & H9). injection Ha as Ha <-.
  apply bind_Ok in H9 as (k & ? & Hk & H9). injection Hk as Hk <-.
  apply on_heap_inv in H9.
  apply Hout in H9; cycle 1.
  { apply (py_iter_addrs _ si); [done|].
    eapply Forall_impl; [exact F6|]. simpl. lia. }
  { apply (py_kwargs_addrs _ sk); [done|].
    eapply Forall_impl; [exact F7|]. simpl. lia. }
  injection H10 as <- <-. injection H as <- <-. simpl.
  split; [split|split_and!; [done|done|]].
  - simpl. rewrite !Forall_app. split_and!; [| |done].
    + eapply Forall_impl; [exact F6|]. simpl. lia.
    + eapply Forall_impl; [exact F7|]. simpl. lia.
  - simpl. lia.
  - rewrite Forall_app. split.
    + eapply Forall_impl; [exact F6|]. simpl. lia.
    + eapply Forall_impl; [exact F7|]. simpl. lia.
Qed.

Lemma capture_builds_replayable_wrapper_witness :
  ∃ g w',
    make_graphed_callable module_callable (VTuple [VTensor gpu_f32]) VNone
      (MkGraphExecutionEnv 1 0 2 3) world0 = (Ok g, w') ∧
    graphed_within g (length (w_heap w')) ∧
    erase (gm_static_inputs g) = erase (VTuple [VTensor gpu_f32]) ∧
    erase (gm_static_kwarg_inputs g) = erase (VDict []) ∧
    Forall (λ j, (length (w_heap world0) ≤ j)%nat)
           (addrs (gm_static_inputs g) ++ addrs (gm_static_kwarg_inputs g)).
Proof.
  destruct (make_graphed_callable module_callable (VTuple [VTensor gpu_f32]) VNone
              (MkGraphExecutionEnv 1 0 2 3) world0) as [[g|e] w'] eqn:E.
  - exists g, w'. split; [reflexivity|].
    refine (capture_builds_replayable_wrapper module_callable
              (VTuple [VTensor gpu_f32]) VNone _ world0 w' g _ _ E).
    + split.
      * intros a k h. simpl. lia.
      * intros a k h out h' Ha _. simpl. intros [= <- <-].
        by apply addrs_items_Forall.
    + repeat constructor.
  - vm_compute in E. discriminate E.
Defined.
